(** * Weather-App: the rate-limited tRPC procedure pipeline

    A shallow embedding of [src/server/api/trpc.ts]: the duration check of
    the configured window, the request context, the rate-limit middleware
    and the two procedure classes built from it. *)

From Stdlib Require Import ZArith Ascii String List Bool Lia.
From stdpp Require Import base gmap strings.

Import ListNotations.
Local Open Scope string_scope.
Local Open Scope Z_scope.
Local Open Scope list_scope.

(** ** JavaScript values used by the module *)

Module JS.

(** A JavaScript number, as far as this module needs one: [parseInt] and
    the counters only produce integers, an infinity or NaN.  0 stands for
    both zeros. *)
Inductive number :=
| NaN
| Num (z : Z)
| Infinity (negative : bool).

(** [a > b] on numbers: every comparison with NaN is false. *)
Definition gt (a b : number) : bool :=
  match a, b with
  | Num x, Num y => y <? x
  | Infinity false, Num _ => true
  | Infinity false, Infinity true => true
  | Num _, Infinity true => true
  | _, _ => false
  end.

(** [a - b] on numbers: NaN is absorbing, and so is the difference of
    equal infinities.  The difference of two integers is kept exact, as
    it is in JavaScript while the numbers stay below 2^53. *)
Definition sub (a b : number) : number :=
  match a, b with
  | Num x, Num y => Num (x - y)
  | Infinity s, Num _ => Infinity s
  | Num _, Infinity s => Infinity (negb s)
  | Infinity s, Infinity s' => if Bool.eqb s s' then NaN else Infinity s
  | _, _ => NaN
  end.

(** The number an integer is read as: the nearest double, ties to the
    even significand of 53 bits, and an infinity beyond the largest
    double. *)
Definition fromInteger (v : Z) : number :=
  let m := Z.abs v in
  if m <? 2 ^ 53 then Num v
  else
    let k := Z.log2 m - 52 in
    let q := Z.shiftr m k in
    let r := m - Z.shiftl q k in
    let half := 2 ^ (k - 1) in
    let q' := if (half <? r) || ((r =? half) && Z.odd q) then q + 1 else q in
    let rounded := Z.shiftl q' k in
    if 2 ^ 1024 <=? rounded then Infinity (v <? 0)
    else Num (Z.sgn v * rounded).

(** [toLowerCase] on the characters header names are made of. *)
Definition lowerCaseChar (c : ascii) : ascii :=
  let n := nat_of_ascii c in
  if ((65 <=? n) && (n <=? 90))%nat then ascii_of_nat (n + 32) else c.

Fixpoint toLowerCase (s : string) : string :=
  match s with
  | EmptyString => EmptyString
  | String c rest => String (lowerCaseChar c) (toLowerCase rest)
  end.

Definition isDigit (c : ascii) : bool :=
  let n := nat_of_ascii c in ((48 <=? n) && (n <=? 57))%nat.

Definition digitValue (c : ascii) : Z := Z.of_nat (nat_of_ascii c) - 48.

(** The integer a word of decimal digits denotes. *)
Definition decimalValue (digits : list ascii) : Z :=
  fold_left (fun acc c => acc * 10 + digitValue c) digits 0.

(** Value of a hexadecimal digit, [None] for any other character. *)
Definition hexValue (c : ascii) : option Z :=
  let n := nat_of_ascii c in
  if ((48 <=? n) && (n <=? 57))%nat then Some (Z.of_nat n - 48)
  else if ((65 <=? n) && (n <=? 70))%nat then Some (Z.of_nat n - 55)
  else if ((97 <=? n) && (n <=? 102))%nat then Some (Z.of_nat n - 87)
  else None.

Definition decValue (c : ascii) : option Z :=
  if isDigit c then Some (digitValue c) else None.

(** White space skipped by [parseInt] (the one-byte characters of
    StrWhiteSpaceChar). *)
Definition isWhiteSpace (c : ascii) : bool :=
  let n := nat_of_ascii c in
  ((9 <=? n) && (n <=? 13) || (n =? 32))%nat.

Fixpoint trimStart (s : list ascii) : list ascii :=
  match s with
  | c :: rest => if isWhiteSpace c then trimStart rest else s
  | [] => []
  end.

(** The longest prefix of radix-[R] digits, folded into its value;
    [None] when the prefix is empty. *)
Fixpoint digitsPrefix (value : ascii -> option Z) (R : Z)
         (acc : option Z) (s : list ascii) : option Z :=
  match s with
  | c :: rest =>
      match value c with
      | Some d =>
          digitsPrefix value R
            (Some (match acc with Some a => a * R + d | None => d end)) rest
      | None => acc
      end
  | [] => acc
  end.

(** The digits of the number: hexadecimal after a [0x] or [0X] prefix,
    decimal otherwise. *)
Definition parseMagnitude (s : list ascii) : option Z :=
  match s with
  | c0 :: c1 :: rest =>
      if Ascii.eqb c0 "0" && (Ascii.eqb c1 "x" || Ascii.eqb c1 "X")
      then digitsPrefix hexValue 16 None rest
      else digitsPrefix decValue 10 None s
  | _ => digitsPrefix decValue 10 None s
  end.

(** [parseInt(string)] with no radix argument: leading white space is
    skipped, a sign is read, then the digits up to the first character
    that is not one; no digit at all gives NaN.  The integer the digits
    denote is returned as a number, so it is rounded when it has more
    than 53 significant bits. *)
Definition parseInt (str : string) : number :=
  let trimmed := trimStart (list_ascii_of_string str) in
  let '(sign, rest) :=
    match trimmed with
    | c :: rest =>
        if Ascii.eqb c "-" then (-1, rest)
        else if Ascii.eqb c "+" then (1, rest)
        else (1, trimmed)
    | [] => (1, [])
    end in
  match parseMagnitude rest with
  | Some mathInt => fromInteger (sign * mathInt)
  | None => NaN
  end.

(** A template literal prints an absent value as [undefined]. *)
Definition toString (v : option string) : string :=
  match v with
  | Some s => s
  | None => "undefined"
  end.

(** *** Regular expressions

    The fragment of the pattern language used by [durationRegex],
    matched by derivatives. *)
Inductive regex :=
| Void
| Eps
| Chr (c : ascii)
| Digit                       (* \d *)
| Cat (r1 r2 : regex)
| Alt (r1 r2 : regex)
| Star (r : regex).

(** [r+] *)
Definition Plus (r : regex) : regex := Cat r (Star r).

(** A literal word. *)
Fixpoint Lit (w : list ascii) : regex :=
  match w with
  | [] => Eps
  | c :: rest => Cat (Chr c) (Lit rest)
  end.

Fixpoint nullable (r : regex) : bool :=
  match r with
  | Void => false
  | Eps => true
  | Chr _ => false
  | Digit => false
  | Cat r1 r2 => nullable r1 && nullable r2
  | Alt r1 r2 => nullable r1 || nullable r2
  | Star _ => true
  end.

Fixpoint deriv (a : ascii) (r : regex) : regex :=
  match r with
  | Void => Void
  | Eps => Void
  | Chr c => if Ascii.eqb a c then Eps else Void
  | Digit => if isDigit a then Eps else Void
  | Cat r1 r2 =>
      if nullable r1
      then Alt (Cat (deriv a r1) r2) (deriv a r2)
      else Cat (deriv a r1) r2
  | Alt r1 r2 => Alt (deriv a r1) (deriv a r2)
  | Star r1 => Cat (deriv a r1) (Star r1)
  end.

Fixpoint matches (r : regex) (s : list ascii) : bool :=
  match s with
  | [] => nullable r
  | a :: rest => matches (deriv a r) rest
  end.

(** [/^r$/.test(s)]: with both anchors and no [m] flag the whole input
    has to match. *)
Definition test (r : regex) (s : string) : bool :=
  matches r (list_ascii_of_string s).

(** The words of a pattern. *)
Inductive lang : regex -> list ascii -> Prop :=
| lang_eps : lang Eps []
| lang_chr c : lang (Chr c) [c]
| lang_digit c : isDigit c = true -> lang Digit [c]
| lang_cat r1 r2 s1 s2 : lang r1 s1 -> lang r2 s2 -> lang (Cat r1 r2) (s1 ++ s2)
| lang_alt_l r1 r2 s : lang r1 s -> lang (Alt r1 r2) s
| lang_alt_r r1 r2 s : lang r2 s -> lang (Alt r1 r2) s
| lang_star_nil r : lang (Star r) []
| lang_star_cons r s1 s2 :
    lang r s1 -> lang (Star r) s2 -> lang (Star r) (s1 ++ s2).

End JS.

(** ** Configuration *)

(** The two settings of [env] (from [~/env.mjs]) this module reads. *)
Module env.
Record t := {
  UPSTASH_RATELIMITER_TOKENS_PER_TIME : string;
  UPSTASH_RATELIMITER_TIME_INTERVAL : string
}.
End env.

(** [(ms|s|m|h|d)] *)
Definition unitRegex : JS.regex :=
  JS.Alt (JS.Lit ["m"; "s"]%char)
    (JS.Alt (JS.Chr "s")
       (JS.Alt (JS.Chr "m")
          (JS.Alt (JS.Chr "h") (JS.Chr "d")))).

(** [/^(\d+)(ms|s|m|h|d)$/] *)
Definition durationRegex : JS.regex :=
  JS.Cat (JS.Plus JS.Digit) unitRegex.

Definition validateDuration (value : string) : bool :=
  JS.test durationRegex value.

(** The module constant, as a function of the environment it is computed
    from when the module is loaded. *)
Definition UPSTASH_RATELIMITER_TIME_INTERVAL (e : env.t) : string :=
  if validateDuration (env.UPSTASH_RATELIMITER_TIME_INTERVAL e)
  then env.UPSTASH_RATELIMITER_TIME_INTERVAL e
  else "1d".

(** The form the specification gives for a window duration: an integer
    written in decimal digits, followed by one of the five units. *)
Definition durationUnits : list string := ["ms"; "s"; "m"; "h"; "d"].

Definition durationForm (value : string) : Prop :=
  exists (digits : list ascii) (unit : string),
    digits <> [] /\
    Forall (fun c => JS.isDigit c = true) digits /\
    In unit durationUnits /\
    value = string_of_list_ascii digits +:+ unit.

(** Modelled from the spec: the length of a window, in milliseconds.  The
    limiter of [@upstash/ratelimit] (not under src/) takes the window as
    an amount with one of the units milliseconds, seconds, minutes, hours
    and days; any other text is no window. *)
Fixpoint spanDigits (s : list ascii) : list ascii * list ascii :=
  match s with
  | c :: rest =>
      if JS.isDigit c
      then let '(digits, suffix) := spanDigits rest in (c :: digits, suffix)
      else ([], s)
  | [] => ([], [])
  end.

Definition unitMs (unit : string) : option Z :=
  if String.eqb unit "ms" then Some 1
  else if String.eqb unit "s" then Some 1000
  else if String.eqb unit "m" then Some 60000
  else if String.eqb unit "h" then Some 3600000
  else if String.eqb unit "d" then Some 86400000
  else None.

Definition durationMs (value : string) : option Z :=
  let '(digits, unit) := spanDigits (list_ascii_of_string value) in
  match digits, unitMs (string_of_list_ascii unit) with
  | _ :: _, Some factor => Some (JS.decimalValue digits * factor)
  | _, _ => None
  end.

(** ** The tRPC server library, as far as this module calls it *)

Module TRPC.

(** The error codes a [TRPCError] can carry. *)
Inductive TRPC_ERROR_CODE_KEY :=
| PARSE_ERROR
| BAD_REQUEST
| INTERNAL_SERVER_ERROR
| NOT_IMPLEMENTED
| UNAUTHORIZED
| FORBIDDEN
| NOT_FOUND
| METHOD_NOT_SUPPORTED
| TIMEOUT
| CONFLICT
| PRECONDITION_FAILED
| PAYLOAD_TOO_LARGE
| UNPROCESSABLE_CONTENT
| TOO_MANY_REQUESTS
| CLIENT_CLOSED_REQUEST.

(** The HTTP status each code is answered with. *)
Definition httpStatus (c : TRPC_ERROR_CODE_KEY) : Z :=
  match c with
  | PARSE_ERROR => 400
  | BAD_REQUEST => 400
  | INTERNAL_SERVER_ERROR => 500
  | NOT_IMPLEMENTED => 501
  | UNAUTHORIZED => 401
  | FORBIDDEN => 403
  | NOT_FOUND => 404
  | METHOD_NOT_SUPPORTED => 405
  | TIMEOUT => 408
  | CONFLICT => 409
  | PRECONDITION_FAILED => 412
  | PAYLOAD_TOO_LARGE => 413
  | UNPROCESSABLE_CONTENT => 422
  | TOO_MANY_REQUESTS => 429
  | CLIENT_CLOSED_REQUEST => 499
  end.

(** An exception that is not a [TRPCError]. *)
Record Error := { error_message : string }.

Record TRPCError := {
  code : TRPC_ERROR_CODE_KEY;
  message : string;
  cause : option Error
}.

(** What a [throw] can raise. *)
Inductive Thrown :=
| ThrownTRPC (e : TRPCError)
| ThrownOther (e : Error).

(** How a statement completes. *)
Inductive Completion (A : Type) :=
| Return (a : A)
| Throw (t : Thrown).
Arguments Return {A} a.
Arguments Throw {A} t.

(** [{ ok: true, data }] or [{ ok: false, error }]. *)
Inductive MiddlewareResult (Data : Type) :=
| ok (data : Data)
| error (e : TRPCError).
Arguments ok {Data} data.
Arguments error {Data} e.

(** An exception caught around a middleware keeps its [TRPCError]; any
    other value is wrapped as an internal server error. *)
Definition getTRPCErrorFromUnknown (t : Thrown) : TRPCError :=
  match t with
  | ThrownTRPC e => e
  | ThrownOther e =>
      {| code := INTERNAL_SERVER_ERROR;
         message := error_message e;
         cause := Some e |}
  end.

End TRPC.

Import TRPC.

(** ** The state a call runs in *)

Inductive HeaderValue :=
| HString (s : string)
| HNumber (n : JS.number).

Inductive LogLevel := debug | info | warn | error_level.

Record LogEntry := {
  level : LogLevel;
  log_message : string;
  fields : list (string * string)
}.

(** The incoming request: Node stores header names in lower case. *)
Record NextApiRequest := { headers : gmap string string }.

(** [res] is a reference to the response object of the request; the
    objects themselves live in the [World]. *)
Record CreateNextContextOptions := {
  req : NextApiRequest;
  opts_res : nat
}.

(** The request context: [{ ip, res }]. *)
Record Context := {
  ip : option string;
  res : nat
}.

(** The inner context is the empty object. *)
Definition createInnerTRPCContext (_opts : unit) : unit := tt.

(** The empty inner context spreads no field into the result. *)
Definition createTRPCContext (_opts : CreateNextContextOptions) : Context :=
  let ip := headers (req _opts) !! "x-forwarded-for" in
  let res := opts_res _opts in
  {| ip := ip; res := res |}.

(** [redis]: the state of the counter store; [responses]: the headers
    set on each response object; [logged]: what has been logged. *)
Record World (Store : Type) := {
  redis : Store;
  responses : gmap nat (gmap string HeaderValue);
  logged : list LogEntry
}.
Arguments redis {Store} w.
Arguments responses {Store} w.
Arguments logged {Store} w.

(** An effectful computation: it changes the world, and returns or throws. *)
Definition M (Store A : Type) : Type :=
  World Store -> World Store * Completion A.

Definition ret {Store A} (a : A) : M Store A := fun w => (w, Return a).

Definition throw {Store A} (t : Thrown) : M Store A := fun w => (w, Throw t).

Definition bind {Store A B} (c : M Store A) (k : A -> M Store B) : M Store B :=
  fun w =>
    match c w with
    | (w', Return a) => k a w'
    | (w', Throw t) => (w', Throw t)
    end.

Notation "'let*' x ':=' c 'in' k" := (bind c (fun x => k))
  (at level 10, x name, c at level 100, k at level 200).
Notation "c ';;;' k" := (bind c (fun _ => k))
  (at level 100, k at level 200, right associativity).

(** [res.setHeader(name, value)]: the response keeps its headers under
    their lower-cased names, so a header set before under another
    spelling of the name is replaced.  The spelling sent on the wire is
    not kept. *)
Definition setHeader {Store} (res : nat) (name : string) (value : HeaderValue)
  : M Store unit :=
  fun w =>
    ({| redis := redis w;
        responses :=
          <[res := <[JS.toLowerCase name := value]>
                     (default ∅ (responses w !! res))]>
            (responses w);
        logged := logged w |}, Return tt).

(** [res.getHeader(name)]: the name is looked up in lower case. *)
Definition getHeader {Store} (w : World Store) (res : nat) (name : string)
  : option HeaderValue :=
  default ∅ (responses w !! res) !! JS.toLowerCase name.

(** [log.warn(message, fields)] *)
Definition log_warn {Store} (message : string) (fields : list (string * string))
  : M Store unit :=
  fun w =>
    ({| redis := redis w;
        responses := responses w;
        logged :=
          logged w ++
            [{| level := warn; log_message := message; fields := fields |}] |},
     Return tt).

(** ** The rate limiter object *)

(** The fields of a limiter's answer that the middleware reads. *)
Record RatelimitResponse := {
  success : bool;
  remaining : JS.number
}.

(** A [Ratelimit] instance: [limit(identifier)] talks to the counter
    store, and returns an answer or throws. *)
Record Ratelimit (Store : Type) := {
  limit : string -> Store -> Store * Completion RatelimitResponse
}.
Arguments limit {Store} r identifier store.

(** [await ratelimit.limit(identifier)] *)
Definition await_limit {Store} (ratelimit : Ratelimit Store)
    (identifier : string) : M Store RatelimitResponse :=
  fun w =>
    let '(store, answer) := limit ratelimit identifier (redis w) in
    ({| redis := store; responses := responses w; logged := logged w |},
     answer).

(** Modelled from the spec: the external counter store (the Redis
    instance of [~/server/upstash], not under src/): one record per key,
    with the count of the calls in the current window and the time the
    window ends; the count is incremented and read in one atomic step; an
    unreachable store fails the operation.  [now] is the clock of the
    store, in milliseconds. *)
Record CounterStore := {
  reachable : bool;
  counts : gmap string Z;
  now : Z;
  expiries : gmap string Z
}.

Definition count_of (store : CounterStore) (key : string) : Z :=
  default 0 (counts store !! key).

(** The record of a key is created with a fresh window when the key is
    absent, and incremented when it is there. *)
Definition incrementAndRead (key : string) (window : string)
    (store : CounterStore) : CounterStore * Completion Z :=
  if reachable store then
    match durationMs window with
    | Some ms =>
        let count := count_of store key + 1 in
        ({| reachable := true;
            counts := <[key := count]> (counts store);
            now := now store;
            expiries :=
              match counts store !! key with
              | Some _ => expiries store
              | None => <[key := now store + ms]> (expiries store)
              end |},
         Return count)
    | None =>
        (store,
         Throw (ThrownOther
                  {| error_message := "Unable to parse window size" |}))
    end
  else
    (store, Throw (ThrownOther {| error_message := "fetch failed" |})).

(** Has the window of a key ended at time [t]?  A record without a
    window does not expire. *)
Definition expired (store : CounterStore) (t : Z) (key : string) : bool :=
  match expiries store !! key with
  | Some ends => ends <=? t
  | None => false
  end.

(** Modelled from the spec: [d] milliseconds pass.  The records whose
    window has elapsed expire, and the store treats their keys as absent
    again. *)
Definition elapse (d : Z) (store : CounterStore) : CounterStore :=
  let t := now store + d in
  {| reachable := reachable store;
     counts :=
       filter (fun entry => expired store t (fst entry) = false)
         (counts store);
     now := t;
     expiries :=
       filter (fun entry => expired store t (fst entry) = false)
         (expiries store) |}.

(** Modelled from the spec: the Quota Gate, [Ratelimit.slidingWindow] of
    the package [@upstash/ratelimit] (not under src/), by the three steps
    of section 4.2: increment the counter of the key; if the count exceeds
    the budget the answer is [{allowed: false, remaining: 0}]; else it is
    [{allowed: true, remaining: N - count}].  The budget is the number
    [parseInt] returned, compared and subtracted as JavaScript does. *)
Definition slidingWindow (tokens : JS.number) (window : string)
  : Ratelimit CounterStore :=
  {| limit identifier store :=
       match incrementAndRead identifier window store with
       | (store', Return count) =>
           (store',
            Return
              (if JS.gt (JS.Num count) tokens
               then {| success := false; remaining := JS.Num 0 |}
               else {| success := true;
                       remaining := JS.sub tokens (JS.Num count) |}))
       | (store', Throw t) => (store', Throw t)
       end |}.

(** The module constant [ratelimit], as a function of the environment:
    a sliding window of [parseInt(tokens)] calls per interval.  The
    options [analytics] and [prefix] do not bear on the answers. *)
Definition ratelimit (e : env.t) : Ratelimit CounterStore :=
  slidingWindow
    (JS.parseInt (env.UPSTASH_RATELIMITER_TOKENS_PER_TIME e))
    (UPSTASH_RATELIMITER_TIME_INTERVAL e).




(** Modelled from the spec: the validation of the environment by
    [~/env.mjs] (not under src/), which runs when the process starts and
    before this module is loaded: the token budget has to be a positive
    integer, that is decimal digits that denote a number which is an
    integer above 0 (an infinity is no integer). *)
Definition isPositiveInteger (value : string) : bool :=
  let digits := list_ascii_of_string value in
  match digits with
  | [] => false
  | _ :: _ =>
      forallb JS.isDigit digits
      && match JS.fromInteger (JS.decimalValue digits) with
         | JS.Num n => 0 <? n
         | _ => false
         end
  end.

Definition validateEnv (raw : env.t) : option env.t :=
  if isPositiveInteger (env.UPSTASH_RATELIMITER_TOKENS_PER_TIME raw)
  then Some raw
  else None.

(** Process start: the environment is validated, then the limiter is
    built from it. *)
Definition startup (raw : env.t) : option (Ratelimit CounterStore) :=
  match validateEnv raw with
  | Some e => Some (ratelimit e)
  | None => None
  end.

(** ** Middlewares and procedures *)

(** The Identity Resolver: the key of a call. *)
Definition identifier (ctx : Context) (path : string) : string :=
  JS.toString (ip ctx) +:+ ":" +:+ path.

Section Procedures.

Context {Store Input Data : Type}.

(** What a middleware is called with; [next(opts)] runs the rest of the
    chain, with the context of [opts] when it gives one. *)
Record MiddlewareOpts := {
  ctx : Context;
  path : string;
  rawInput : Input;
  next : option Context -> M Store (MiddlewareResult Data)
}.

Definition MiddlewareFunction : Type :=
  MiddlewareOpts -> M Store (MiddlewareResult Data).

Definition Resolver : Type := Context -> Input -> M Store Data.

(** A procedure under construction: its chain of middlewares. *)
Record ProcedureBuilder := { middlewares : list MiddlewareFunction }.

(** [t.procedure] *)
Definition procedure : ProcedureBuilder := {| middlewares := [] |}.

(** [builder.use(fn)] *)
Definition use (builder : ProcedureBuilder) (fn : MiddlewareFunction)
  : ProcedureBuilder :=
  {| middlewares := middlewares builder ++ [fn] |}.

(** [builder.query(resolver)], [builder.mutation(resolver)]: the handler
    closes the chain. *)
Definition resolverMiddleware (resolver : Resolver) : MiddlewareFunction :=
  fun opts =>
    let* data := resolver (ctx opts) (rawInput opts) in
    ret (ok data).

Definition query (builder : ProcedureBuilder) (resolver : Resolver)
  : ProcedureBuilder :=
  use builder (resolverMiddleware resolver).

(** Running a chain: each middleware is called inside a [try]; what it
    throws becomes the failed result of the call. *)
Fixpoint callRecursive (chain : list MiddlewareFunction) (c : Context)
    (p : string) (input : Input) : M Store (MiddlewareResult Data) :=
  fun w =>
    match chain with
    | [] =>
        (w, Return (error (getTRPCErrorFromUnknown
                             (ThrownOther
                                {| error_message :=
                                     "middleware is not a function" |}))))
    | middleware :: rest =>
        match
          middleware
            {| ctx := c; path := p; rawInput := input;
               next := fun nextOpts =>
                         callRecursive rest (default c nextOpts) p input |}
            w
        with
        | (w', Return result) => (w', Return result)
        | (w', Throw cause) =>
            (w', Return (error (getTRPCErrorFromUnknown cause)))
        end
    end.

(** Calling a procedure: the data of the handler, or the error thrown. *)
Definition call (proc : ProcedureBuilder) (c : Context) (p : string)
    (input : Input) : M Store Data :=
  let* result := callRecursive (middlewares proc) c p input in
  match result with
  | ok data => ret data
  | error e => throw (ThrownTRPC e)
  end.

Variable e : env.t.
Variable the_ratelimit : Ratelimit Store.

Definition rateLimitMiddleware : MiddlewareFunction :=
  fun opts =>
    let identifier := identifier (ctx opts) (path opts) in
    let* answer := await_limit the_ratelimit identifier in
    setHeader (res (ctx opts)) "X-RateLimit-Limit"
      (HString (env.UPSTASH_RATELIMITER_TOKENS_PER_TIME e)) ;;;
    setHeader (res (ctx opts)) "X-RateLimit-Remaining"
      (HNumber (remaining answer)) ;;;
    if negb (success answer) then
      log_warn "Rate limit exceeded" [("ip", identifier)] ;;;
      throw (ThrownTRPC {| code := INTERNAL_SERVER_ERROR;
                           message := "Rate limit exceeded";
                           cause := None |})
    else
      next opts None.

Definition publicProcedure : ProcedureBuilder := procedure.

Definition rateLimitedProcedure : ProcedureBuilder :=
  use procedure rateLimitMiddleware.

End Procedures.

(** ** The layout of a page *)

Module Layout.

(** The document title [Layout] renders: the empty title is falsy. *)
Definition documentTitle (title : string) : string :=
  if String.eqb title "" then "Weather.io" else title +:+ " - Weather.io".

End Layout.

(** ** The search page *)

Module Search.

Section Page.

(** Coordinates are numbers the page only copies. *)
Variable number : Type.

(** The translations of the name spaces [locationsettings] and [common]. *)
Variable translationLocationSettings : string -> string.
Variable translationCommon : string -> string.

Record Coord := { lon : number; lat : number }.

(** [ICity]; the ids of cities are integers. *)
Record ICity := {
  id : Z;
  name : string;
  country : string;
  region : string;
  coord : Coord
}.

(** The status of a query: "loading", "error" or "success". *)
Inductive QueryStatus := loading | failed | success.

Definition isLoading (status : QueryStatus) : bool :=
  match status with
  | loading => true
  | _ => false
  end.

(** What a city query holds: an array (the default [[]] while there is
    no data), or an object with the field [city], which may be undefined. *)
Inductive CityData :=
| ArrayData
| ObjectData (city : option ICity).

(** The values [searchCity] closes over in one render. *)
Record Render := {
  searchValue : ICity;
  findCityByIdStatus : QueryStatus;
  findCityByIdData : CityData;
  findCityByNameStatus : QueryStatus;
  findCityByNameData : CityData
}.

(** What [searchCity] acts on: the two observables, the toasts shown,
    the console and the routes pushed. *)
Record PageState := {
  addedCities : list ICity;
  activeCity : option ICity;
  toasts : list string;
  console : list string;
  router : list string
}.

(** [toast.error(message)] *)
Definition toast_error (message : string) (st : PageState) : PageState :=
  {| addedCities := addedCities st;
     activeCity := activeCity st;
     toasts := toasts st ++ [message];
     console := console st;
     router := router st |}.

(** [console.log(line)] *)
Definition console_log (line : string) (st : PageState) : PageState :=
  {| addedCities := addedCities st;
     activeCity := activeCity st;
     toasts := toasts st;
     console := console st ++ [line];
     router := router st |}.

(** [router.push(url)] *)
Definition router_push (url : string) (st : PageState) : PageState :=
  {| addedCities := addedCities st;
     activeCity := activeCity st;
     toasts := toasts st;
     console := console st;
     router := router st ++ [url] |}.

(** [activeCity$.set(city)] *)
Definition activeCity_set (city : ICity) (st : PageState) : PageState :=
  {| addedCities := addedCities st;
     activeCity := Some city;
     toasts := toasts st;
     console := console st;
     router := router st |}.

(** [addedCities$.push(city)] *)
Definition addedCities_push (city : ICity) (st : PageState) : PageState :=
  {| addedCities := addedCities st ++ [city];
     activeCity := activeCity st;
     toasts := toasts st;
     console := console st;
     router := router st |}.

(** The handler of the continue button and of the enter key.  [finish] is
    the part after the lookups; a branch that does not reach it has
    returned. *)
Definition searchCity (r : Render) (st : PageState) : PageState :=
  let finish (city : option ICity) (st : PageState) : PageState :=
    match city with
    | Some city =>
        match find (fun value => id value =? id city) (addedCities st) with
        | Some _ => router_push "/home" (activeCity_set city st)
        | None =>
            router_push "/home"
              (activeCity_set city (addedCities_push city st))
        end
    | None =>
        toast_error (translationLocationSettings "city not found toast") st
    end in
  if id (searchValue r) =? -1 then
    finish
      (Some {| id := -1;
               name := name (searchValue r);
               country := "";
               region := "";
               coord := {| lon := lon (coord (searchValue r));
                           lat := lat (coord (searchValue r)) |} |})
      st
  else if negb (id (searchValue r) =? 0)
          && negb (String.eqb (country (searchValue r)) "") then
    let st := console_log "hi" st in
    if isLoading (findCityByIdStatus r) then
      toast_error (translationLocationSettings "try again toast") st
    else
      match findCityByIdData r with
      | ObjectData city => finish city st
      | ArrayData =>
          toast_error (translationLocationSettings "city not found toast") st
      end
  else
    let st := console_log "hi" st in
    if isLoading (findCityByNameStatus r) then
      toast_error (translationLocationSettings "try again toast") st
    else
      let st := console_log "hi 2" st in
      match findCityByNameData r with
      | ObjectData city => finish city (console_log "hi 3" st)
      | ArrayData =>
          toast_error (translationLocationSettings "city not found toast") st
      end.

(** [onChange] of the input: the text typed replaces the name and the id
    is reset. *)
Definition onChange (value : string) (prevSearchValue : ICity) : ICity :=
  {| id := 0;
     name := value;
     country := country prevSearchValue;
     region := region prevSearchValue;
     coord := coord prevSearchValue |}.

(** [onMouseDown] of a suggestion: the city replaces the search value. *)
Definition onMouseDown (city prevSearchValue : ICity) : ICity :=
  {| id := id city;
     name := name city;
     country := country city;
     region := region city;
     coord := {| lon := lon (coord city); lat := lat (coord city) |} |}.

(** The callback of [getCurrentPosition]. *)
Definition onPosition (latitude longitude : number) : ICity :=
  {| id := -1;
     name := translationCommon "my city";
     country := "";
     region := "";
     coord := {| lon := longitude; lat := latitude |} |}.

End Page.

Arguments lon {number} c.
Arguments lat {number} c.
Arguments id {number} i.
Arguments name {number} i.
Arguments country {number} i.
Arguments region {number} i.
Arguments coord {number} i.
Arguments ArrayData {number}.
Arguments ObjectData {number} city.
Arguments searchValue {number} r.
Arguments findCityByIdStatus {number} r.
Arguments findCityByIdData {number} r.
Arguments findCityByNameStatus {number} r.
Arguments findCityByNameData {number} r.
Arguments addedCities {number} p.
Arguments activeCity {number} p.
Arguments toasts {number} p.
Arguments console {number} p.
Arguments router {number} p.
Arguments toast_error {number} message st.
Arguments console_log {number} line st.
Arguments router_push {number} url st.
Arguments activeCity_set {number} city st.
Arguments addedCities_push {number} city st.
Arguments searchCity {number} translationLocationSettings r st.
Arguments onChange {number} value prevSearchValue.
Arguments onMouseDown {number} city prevSearchValue.
Arguments onPosition {number} translationCommon latitude longitude.

End Search.

(** An operation path without a colon, as the dotted paths of a router
    are. *)
Definition colonFree (p : string) : bool :=
  forallb (fun c => negb (Ascii.eqb c ":")) (list_ascii_of_string p).

(** ** Vocabulary of the statements *)

(** The world a call is in once the limiter has answered and the two
    quota headers are set on the response of the call. *)
Definition afterGate {Store} (e : env.t) (c : Context) (store : Store)
    (answer : RatelimitResponse) (w : World Store) : World Store :=
  {| redis := store;
     responses :=
       <[res c :=
           <["x-ratelimit-remaining" := HNumber (remaining answer)]>
             (<["x-ratelimit-limit" :=
                  HString (env.UPSTASH_RATELIMITER_TOKENS_PER_TIME e)]>
                (default ∅ (responses w !! res c)))]>
         (responses w);
     logged := logged w |}.

(** The store once a call has been counted under a key, in a window of
    [ms] milliseconds when the key is new. *)
Definition counted (key : string) (ms : Z) (store : CounterStore)
  : CounterStore :=
  {| reachable := true;
     counts := <[key := count_of store key + 1]> (counts store);
     now := now store;
     expiries :=
       match counts store !! key with
       | Some _ => expiries store
       | None => <[key := now store + ms]> (expiries store)
       end |}.

(** The warning of a rejected call. *)
Definition rateLimitWarning (identifier : string) : LogEntry :=
  {| level := warn;
     log_message := "Rate limit exceeded";
     fields := [("ip", identifier)] |}.

(** The error of a rejected call. *)
Definition rateLimitExceeded : TRPCError :=
  {| code := INTERNAL_SERVER_ERROR;
     message := "Rate limit exceeded";
     cause := None |}.

(** A procedure with further middlewares and its handler appended. *)
Definition extended {Store Input Data}
    (builder : ProcedureBuilder (Store := Store) (Input := Input) (Data := Data))
    (rest : list MiddlewareFunction) : ProcedureBuilder :=
  {| middlewares := middlewares builder ++ rest |}.

(** A limiter that records the keys it is asked about, and denies. *)
Definition recordingLimiter : Ratelimit (list string) :=
  {| limit identifier asked :=
       (asked ++ [identifier],
        Return {| success := false; remaining := JS.Num 0 |}) |}.

(** [k] calls of [limit] for one key, one after the other. *)
Fixpoint consume (rl : Ratelimit CounterStore) (key : string) (k : nat)
    (store : CounterStore) : CounterStore :=
  match k with
  | O => store
  | S k' => consume rl key k' (fst (limit rl key store))
  end.

(** An environment with the given budget and window. *)
Definition env_of (tokens interval : string) : env.t :=
  {| env.UPSTASH_RATELIMITER_TOKENS_PER_TIME := tokens;
     env.UPSTASH_RATELIMITER_TIME_INTERVAL := interval |}.

(** *** Sample calls *)

Definition sampleEnv : env.t := env_of "2" "10s".

Definition sampleCaller : Context :=
  {| ip := Some "203.0.113.7"; res := 0%nat |}.

Definition samplePath : string := "search.findCitiesByName".

(** A reachable store in which the sample caller has made [used] calls
    of the sample operation. *)
Definition sampleWorld (used : Z) : World CounterStore :=
  {| redis :=
       {| reachable := true;
          counts := {[ identifier sampleCaller samplePath := used ]};
          now := 0;
          expiries := {[ identifier sampleCaller samplePath := 10000 ]} |};
     responses := ∅;
     logged := [] |}.

(** A reachable store without any record. *)
Definition emptyStore : CounterStore :=
  {| reachable := true; counts := ∅; now := 0; expiries := ∅ |}.

(** The store cannot be reached. *)
Definition outageWorld : World CounterStore :=
  {| redis := {| reachable := false; counts := ∅; now := 0; expiries := ∅ |};
     responses := ∅;
     logged := [] |}.

(** A handler. *)
Definition sampleResolver : Resolver (Store := CounterStore) (Input := unit) :=
  fun _ _ => ret "sunny".

(** The sample operation, declared in the guarded class. *)
Definition sampleProcedure
  : ProcedureBuilder (Store := CounterStore) (Input := unit) (Data := string) :=
  query (rateLimitedProcedure sampleEnv (ratelimit sampleEnv)) sampleResolver.

(** What the middleware of a sample call is given. *)
Definition sampleOpts {Store : Type} (c : Context)
  : MiddlewareOpts (Store := Store) (Input := unit) (Data := string) :=
  {| ctx := c;
     path := samplePath;
     rawInput := tt;
     next := fun _ => ret (ok "sunny") |}.

(** Two requests that carry no forwarded address. *)
Definition directRequest : CreateNextContextOptions :=
  {| req := {| headers := {[ "host" := "weather.example" ]} |};
     opts_res := 1%nat |}.

Definition otherDirectRequest : CreateNextContextOptions :=
  {| req := {| headers := {[ "user-agent" := "curl/8.0" ]} |};
     opts_res := 2%nat |}.

(** A request whose forwarded address is the word a missing header
    prints as. *)
Definition undefinedRequest : CreateNextContextOptions :=
  {| req := {| headers := {[ "x-forwarded-for" := "undefined" ]} |};
     opts_res := 3%nat |}.

(** A request that came through a proxy. *)
Definition forwardedRequest : CreateNextContextOptions :=
  {| req := {| headers := {[ "x-forwarded-for" := "203.0.113.7" ]} |};
     opts_res := 0%nat |}.

(** *** Sample searches *)

(** A city of the lookup service, with integer coordinates. *)
Definition sampleCity : Search.ICity Z :=
  {| Search.id := 2950159;
     Search.name := "Berlin";
     Search.country := "DE";
     Search.region := "Berlin";
     Search.coord := {| Search.lon := 13; Search.lat := 52 |} |}.

(** The initial search value of the page. *)
Definition initialSearchValue : Search.ICity Z :=
  {| Search.id := 0;
     Search.name := "";
     Search.country := "";
     Search.region := "";
     Search.coord := {| Search.lon := 0; Search.lat := 0 |} |}.

(** A render in which both city queries hold the sample city. *)
Definition sampleRender (searchValue : Search.ICity Z) : Search.Render Z :=
  {| Search.searchValue := searchValue;
     Search.findCityByIdStatus := Search.success;
     Search.findCityByIdData := Search.ObjectData (Some sampleCity);
     Search.findCityByNameStatus := Search.success;
     Search.findCityByNameData := Search.ObjectData (Some sampleCity) |}.

(** A render in which both city queries are still loading. *)
Definition loadingRender (searchValue : Search.ICity Z) : Search.Render Z :=
  {| Search.searchValue := searchValue;
     Search.findCityByIdStatus := Search.loading;
     Search.findCityByIdData := Search.ArrayData;
     Search.findCityByNameStatus := Search.loading;
     Search.findCityByNameData := Search.ArrayData |}.

(** A page on which the given cities have been added. *)
Definition pageWith (cities : list (Search.ICity Z)) : Search.PageState Z :=
  {| Search.addedCities := cities;
     Search.activeCity := None;
     Search.toasts := [];
     Search.console := [];
     Search.router := [] |}.

(** * Properties *)

(** ** The pattern matcher *)

Section RegexFacts.

Import JS.

(** Inversion of the words of each pattern. *)
Lemma lang_cat_inv (r1 r2 : regex) (w : list ascii) :
  lang (Cat r1 r2) w ->
  exists s1 s2, w = s1 ++ s2 /\ lang r1 s1 /\ lang r2 s2.
Proof. inversion 1; subst; eauto. Qed.

Lemma lang_alt_inv (r1 r2 : regex) (w : list ascii) :
  lang (Alt r1 r2) w -> lang r1 w \/ lang r2 w.
Proof. inversion 1; subst; auto. Qed.

Lemma lang_chr_inv (c : ascii) (w : list ascii) : lang (Chr c) w -> w = [c].
Proof. inversion 1; reflexivity. Qed.

Lemma lang_digit_inv (w : list ascii) :
  lang Digit w -> exists c, w = [c] /\ isDigit c = true.
Proof. inversion 1; subst; eauto. Qed.

Lemma lang_cat_cons (r1 r2 : regex) (a : ascii) (s1 s2 : list ascii) :
  lang r1 (a :: s1) -> lang r2 s2 -> lang (Cat r1 r2) (a :: s1 ++ s2).
Proof. intros L1 L2. apply (lang_cat _ _ (a :: s1) s2 L1 L2). Qed.

Lemma nullable_lang (r : regex) : nullable r = true <-> lang r [].
Proof.
  induction r; simpl.
  - split; [discriminate | inversion 1].
  - split; [constructor | reflexivity].
  - split; [discriminate | inversion 1].
  - split; [discriminate | inversion 1].
  - rewrite andb_true_iff, IHr1, IHr2. split.
    + intros [L1 L2]. apply (lang_cat _ _ [] [] L1 L2).
    + intros L. apply lang_cat_inv in L as (s1 & s2 & E & L1 & L2).
      symmetry in E. apply app_eq_nil in E as [-> ->]. auto.
  - rewrite orb_true_iff, IHr1, IHr2. split.
    + intros [L | L]; [apply lang_alt_l | apply lang_alt_r]; assumption.
    + apply lang_alt_inv.
  - split; [constructor | reflexivity].
Qed.

(** A non-empty word of [r*] starts with a non-empty word of [r]. *)
Lemma lang_star_uncons (r : regex) (w : list ascii) :
  lang (Star r) w ->
  forall a s, w = a :: s ->
  exists s1 s2, s = s1 ++ s2 /\ lang r (a :: s1) /\ lang (Star r) s2.
Proof.
  intros L. remember (Star r) as r' eqn:Er.
  induction L; try discriminate Er; intros a s E.
  - discriminate E.
  - injection Er as ->.
    destruct s1 as [| b s1]; simpl in E.
    + apply IHL2; [reflexivity | assumption].
    + injection E as -> <-.
      exists s1, s2. auto.
Qed.

Lemma deriv_cat_lang (r1 r2 : regex) (a : ascii) (s : list ascii) :
  (forall s', lang (deriv a r1) s' <-> lang r1 (a :: s')) ->
  lang (Cat r1 r2) (a :: s) <->
  lang (Cat (deriv a r1) r2) s \/ (lang r1 [] /\ lang r2 (a :: s)).
Proof.
  intros IH. split.
  - intros L. apply lang_cat_inv in L as (s1 & s2 & E & L1 & L2).
    destruct s1 as [| b s1]; simpl in E.
    + right. subst s2. auto.
    + injection E as <- ->. left.
      constructor; [apply IH |]; assumption.
  - intros [L | [L1 L2]].
    + apply lang_cat_inv in L as (s1 & s2 & -> & L1 & L2).
      apply lang_cat_cons; [apply IH |]; assumption.
    + apply (lang_cat _ _ [] _ L1 L2).
Qed.

Lemma deriv_lang (r : regex) : forall a s,
  lang (deriv a r) s <-> lang r (a :: s).
Proof.
  induction r; intros a s; simpl.
  - split; inversion 1.
  - split; inversion 1.
  - destruct (Ascii.eqb_spec a c) as [-> | Hne]; split; intros H.
    + inversion H; subst. constructor.
    + apply lang_chr_inv in H. injection H as E. subst s. constructor.
    + inversion H.
    + apply lang_chr_inv in H. congruence.
  - destruct (isDigit a) eqn:Hd; split; intros H.
    + inversion H; subst. constructor; assumption.
    + apply lang_digit_inv in H as (c & E & _). injection E as E1 E2.
      subst c s. constructor.
    + inversion H.
    + apply lang_digit_inv in H as (c & E & Hc). congruence.
  - rewrite (deriv_cat_lang r1 r2 a s (IHr1 a)).
    destruct (nullable r1) eqn:Hn.
    + split; intros H.
      * apply lang_alt_inv in H as [H | H]; [auto |].
        right. split; [apply nullable_lang | apply IHr2]; assumption.
      * destruct H as [H | [_ H]];
          [apply lang_alt_l | apply lang_alt_r, IHr2]; assumption.
    + split; intros H; [auto |].
      destruct H as [H | [H _]]; [assumption |].
      apply nullable_lang in H. congruence.
  - split; intros H; apply lang_alt_inv in H as [H | H];
      solve [apply lang_alt_l, IHr1; assumption
            | apply lang_alt_r, IHr2; assumption].
  - split; intros H.
    + apply lang_cat_inv in H as (s1 & s2 & -> & L1 & L2).
      apply (lang_star_cons _ (a :: s1) s2); [apply IHr |]; assumption.
    + destruct (lang_star_uncons _ _ H a s eq_refl) as (s1 & s2 & -> & L1 & L2).
      constructor; [apply IHr |]; assumption.
Qed.

Lemma matches_lang (s : list ascii) : forall r,
  matches r s = true <-> lang r s.
Proof.
  induction s as [| a s IH]; intros r; simpl.
  - apply nullable_lang.
  - rewrite IH. apply deriv_lang.
Qed.

Lemma lang_star_digits (s : list ascii) :
  lang (Star Digit) s <-> Forall (fun c => isDigit c = true) s.
Proof.
  split.
  - intros L. remember (Star Digit) as r eqn:Er.
    induction L; try discriminate Er.
    + constructor.
    + injection Er as ->.
      apply lang_digit_inv in L1 as (c & -> & Hc). simpl. constructor; auto.
  - induction 1 as [| c s Hc _ IH].
    + constructor.
    + apply (lang_star_cons _ [c] s); [constructor |]; assumption.
Qed.

Lemma lang_plus_digits (s : list ascii) :
  lang (Plus Digit) s <-> s <> [] /\ Forall (fun c => isDigit c = true) s.
Proof.
  unfold Plus. split.
  - intros L. apply lang_cat_inv in L as (s1 & s2 & -> & L1 & L2).
    apply lang_digit_inv in L1 as (c & -> & Hc). simpl.
    split; [discriminate |].
    constructor; [| apply lang_star_digits]; assumption.
  - intros [Hne HF]. destruct HF as [| c s Hc HF]; [congruence |].
    apply (lang_cat _ _ [c] s); [constructor | apply lang_star_digits];
      assumption.
Qed.

Lemma lang_Lit (w s : list ascii) : lang (Lit w) s <-> s = w.
Proof.
  revert s. induction w as [| c w IH]; intros s; simpl; split; intros H.
  - inversion H. reflexivity.
  - subst. constructor.
  - apply lang_cat_inv in H as (s1 & s2 & -> & L1 & L2).
    apply lang_chr_inv in L1 as ->. apply IH in L2 as ->. reflexivity.
  - subst. apply (lang_cat _ _ [c] w); [constructor | apply IH; reflexivity].
Qed.

End RegexFacts.

(** ** The configured window *)

Lemma list_ascii_of_string_append (s1 s2 : string) :
  list_ascii_of_string (s1 +:+ s2)
  = list_ascii_of_string s1 ++ list_ascii_of_string s2.
Proof.
  induction s1 as [| c s1 IH]; simpl; [reflexivity | now rewrite IH].
Qed.

(** The words of the unit group are the five units. *)
Lemma lang_unitRegex (w : list ascii) :
  JS.lang unitRegex w <-> In (string_of_list_ascii w) durationUnits.
Proof.
  unfold unitRegex, durationUnits. split.
  - intros L.
    repeat (apply lang_alt_inv in L as [L | L]);
      try apply lang_Lit in L; try apply lang_chr_inv in L;
      subst w; simpl; tauto.
  - intros H. simpl in H.
    assert (E : forall u, string_of_list_ascii w = u ->
                          w = list_ascii_of_string u).
    { intros u <-. now rewrite list_ascii_of_string_of_list_ascii. }
    destruct H as [H | [H | [H | [H | [H | []]]]]];
      symmetry in H; apply E in H; subst w; cbn [list_ascii_of_string].
    + apply JS.lang_alt_l, lang_Lit. reflexivity.
    + apply JS.lang_alt_r, JS.lang_alt_l. constructor.
    + apply JS.lang_alt_r, JS.lang_alt_r, JS.lang_alt_l. constructor.
    + apply JS.lang_alt_r, JS.lang_alt_r, JS.lang_alt_r, JS.lang_alt_l.
      constructor.
    + apply JS.lang_alt_r, JS.lang_alt_r, JS.lang_alt_r, JS.lang_alt_r.
      constructor.
Qed.

(** The check of the source accepts exactly the strings of the form the
    specification describes. *)
Lemma validateDuration_form (value : string) :
  validateDuration value = true <-> durationForm value.
Proof.
  unfold validateDuration, JS.test, durationForm, durationRegex.
  rewrite matches_lang. split.
  - intros L. apply lang_cat_inv in L as (s1 & s2 & E & L1 & L2).
    apply lang_plus_digits in L1 as [Hne HF].
    apply lang_unitRegex in L2.
    exists s1, (string_of_list_ascii s2). repeat split; try assumption.
    rewrite <- (string_of_list_ascii_of_string value), E.
    clear. induction s1 as [| c s1 IH]; simpl; [reflexivity | now rewrite IH].
  - intros (digits & unit & Hne & HF & Hu & ->).
    rewrite list_ascii_of_string_append, list_ascii_of_string_of_list_ascii.
    constructor.
    + apply lang_plus_digits. split; assumption.
    + apply lang_unitRegex. now rewrite string_of_list_ascii_of_string.
Qed.

Lemma spanDigits_app (digits suffix : list ascii) :
  Forall (fun c => JS.isDigit c = true) digits ->
  (forall c rest, suffix = c :: rest -> JS.isDigit c = false) ->
  spanDigits (digits ++ suffix) = (digits, suffix).
Proof.
  intros Hd Hs. induction Hd as [| c digits Hc _ IH]; simpl.
  - destruct suffix as [| c rest]; [reflexivity |].
    simpl. now rewrite (Hs c rest eq_refl).
  - now rewrite Hc, IH.
Qed.

(** A window of the form the check accepts has a length. *)
Lemma durationMs_form (value : string) :
  durationForm value -> exists ms : Z, durationMs value = Some ms.
Proof.
  intros (digits & unit & Hne & Hd & Hu & ->). unfold durationMs.
  rewrite list_ascii_of_string_append, list_ascii_of_string_of_list_ascii.
  assert (Hspan : spanDigits (digits ++ list_ascii_of_string unit)
                  = (digits, list_ascii_of_string unit)).
  { apply spanDigits_app; [exact Hd |].
    unfold durationUnits in Hu. simpl in Hu.
    destruct Hu as [<- | [<- | [<- | [<- | [<- | []]]]]];
      simpl; intros c rest [= <- <-]; reflexivity. }
  rewrite Hspan, string_of_list_ascii_of_string.
  destruct digits as [| c digits]; [congruence |].
  unfold durationUnits in Hu. simpl in Hu.
  destruct Hu as [<- | [<- | [<- | [<- | [<- | []]]]]]; simpl; eauto.
Qed.

(** The window the module hands to the limiter has a length: the
    configured one when it is well formed, a day otherwise. *)
Lemma time_interval_ms (e : env.t) :
  exists ms : Z,
    durationMs (UPSTASH_RATELIMITER_TIME_INTERVAL e) = Some ms /\
    (validateDuration (env.UPSTASH_RATELIMITER_TIME_INTERVAL e) = true ->
     durationMs (env.UPSTASH_RATELIMITER_TIME_INTERVAL e) = Some ms) /\
    (validateDuration (env.UPSTASH_RATELIMITER_TIME_INTERVAL e) = false ->
     ms = 86400000).
Proof.
  unfold UPSTASH_RATELIMITER_TIME_INTERVAL.
  destruct (validateDuration (env.UPSTASH_RATELIMITER_TIME_INTERVAL e)) eqn:Hv.
  - destruct (durationMs_form _ (proj1 (validateDuration_form _) Hv))
      as (ms & Hms).
    exists ms. split; [exact Hms |]. split; [auto | discriminate].
  - exists 86400000. split; [reflexivity |]. split; [discriminate | auto].
Qed.

(** ** The rate-limit middleware, step by step *)

Section MiddlewareFacts.

Context {Store Input Data : Type}.
Variable e : env.t.
Variable rl : Ratelimit Store.

Local Abbreviation Opts :=
  (MiddlewareOpts (Store := Store) (Input := Input) (Data := Data)).
Local Abbreviation Chain :=
  (list (MiddlewareFunction (Store := Store) (Input := Input) (Data := Data))).

(** Both quota headers are on the response once the gate has answered. *)
Lemma afterGate_headers (c : Context) (store : Store)
    (answer : RatelimitResponse) (w : World Store) :
  getHeader (afterGate e c store answer w) (res c) "X-RateLimit-Limit"
  = Some (HString (env.UPSTASH_RATELIMITER_TOKENS_PER_TIME e)) /\
  getHeader (afterGate e c store answer w) (res c) "X-RateLimit-Remaining"
  = Some (HNumber (remaining answer)).
Proof.
  unfold getHeader, afterGate.
  change (JS.toLowerCase "X-RateLimit-Limit") with "x-ratelimit-limit"%string.
  change (JS.toLowerCase "X-RateLimit-Remaining")
    with "x-ratelimit-remaining"%string.
  simpl. rewrite lookup_insert_eq; simpl. split.
  - rewrite lookup_insert_ne by discriminate. apply lookup_insert_eq.
  - apply lookup_insert_eq.
Qed.


(** The limiter answered: the headers are set, then the answer decides. *)
Lemma rateLimitMiddleware_answer (opts : Opts) (w : World Store)
    (store : Store) (answer : RatelimitResponse) :
  limit rl (identifier (ctx opts) (path opts)) (redis w)
  = (store, Return answer) ->
  rateLimitMiddleware e rl opts w
  = if success answer
    then next opts None (afterGate e (ctx opts) store answer w)
    else
      ({| redis := store;
          responses := responses (afterGate e (ctx opts) store answer w);
          logged :=
            logged w ++ [rateLimitWarning (identifier (ctx opts) (path opts))] |},
       Throw (ThrownTRPC rateLimitExceeded)).
Proof.
  intros H. unfold rateLimitMiddleware, bind, await_limit.
  rewrite H. unfold setHeader, afterGate.
  change (JS.toLowerCase "X-RateLimit-Limit") with "x-ratelimit-limit"%string.
  change (JS.toLowerCase "X-RateLimit-Remaining")
    with "x-ratelimit-remaining"%string.
  simpl. rewrite lookup_insert_eq, insert_insert_eq; simpl.
  destruct (success answer); reflexivity.
Qed.

(** The chain of the guarded class starts with the middleware. *)
Lemma rateLimitedProcedure_chain (rest : Chain) :
  middlewares (extended (rateLimitedProcedure e rl) rest)
  = rateLimitMiddleware e rl :: middlewares (extended publicProcedure rest).
Proof. reflexivity. Qed.

(** A chain always hands back a result: what a middleware throws has
    been caught. *)
Lemma callRecursive_returns (chain : Chain) (c : Context) (p : string)
    (input : Input) (w : World Store) :
  exists w' result, callRecursive chain c p input w = (w', Return result).
Proof.
  destruct chain as [| middleware rest]; simpl; [eauto |].
  destruct (middleware _ w) as [w' [result | cause]]; eauto.
Qed.


(** A call of the guarded class whose limiter answered. *)
Lemma call_guarded_answer (rest : Chain) (c : Context) (p : string)
    (input : Input) (w : World Store) (store : Store)
    (answer : RatelimitResponse) :
  limit rl (identifier c p) (redis w) = (store, Return answer) ->
  call (extended (rateLimitedProcedure e rl) rest) c p input w
  = if success answer
    then call (extended publicProcedure rest) c p input
           (afterGate e c store answer w)
    else
      ({| redis := store;
          responses := responses (afterGate e c store answer w);
          logged := logged w ++ [rateLimitWarning (identifier c p)] |},
       Throw (ThrownTRPC rateLimitExceeded)).
Proof.
  intros H. unfold call, bind. rewrite rateLimitedProcedure_chain.
  cbn [callRecursive].
  rewrite (rateLimitMiddleware_answer _ w store answer) by exact H.
  cbn [ctx path next]. destruct (success answer); [| reflexivity].
  cbn [default extended publicProcedure procedure middlewares app].
  destruct (callRecursive_returns rest c p input (afterGate e c store answer w))
    as (w' & result & ->).
  reflexivity.
Qed.

End MiddlewareFacts.

(** ** Calls of the guarded class *)

Section GuardedCalls.

Context {Store Input Data : Type}.
Variable e : env.t.
Variable rl : Ratelimit Store.

Local Abbreviation Opts :=
  (MiddlewareOpts (Store := Store) (Input := Input) (Data := Data)).
Local Abbreviation Chain :=
  (list (MiddlewareFunction (Store := Store) (Input := Input) (Data := Data))).


(** C3, as the code has it: when the limiter denies a call, the guarded
    call ends with the same error whatever middlewares and handler follow
    the gate, so none of them ran; a warning whose field [ip] is the
    identity key has been logged; the error has the fixed message
    "Rate limit exceeded" and the code INTERNAL_SERVER_ERROR, which is
    neither the code of a validation error (BAD_REQUEST) nor NOT_FOUND. *)
Theorem quota_rejection (c : Context) (p : string) (w : World Store)
    (store : Store) (answer : RatelimitResponse) :
  limit rl (identifier c p) (redis w) = (store, Return answer) ->
  success answer = false ->
  exists w' : World Store,
    logged w'
    = logged w ++ [{| level := warn;
                      log_message := "Rate limit exceeded";
                      fields := [("ip", identifier c p)] |}] /\
    (forall (rest : Chain) (input : Input),
       call (extended (rateLimitedProcedure e rl) rest) c p input w
       = (w', Throw (ThrownTRPC {| code := INTERNAL_SERVER_ERROR;
                                   message := "Rate limit exceeded";
                                   cause := None |}))) /\
    INTERNAL_SERVER_ERROR <> BAD_REQUEST /\
    INTERNAL_SERVER_ERROR <> NOT_FOUND.
Proof.
  intros H Hdeny.
  exists {| redis := store;
            responses := responses (afterGate e c store answer w);
            logged := logged w ++ [rateLimitWarning (identifier c p)] |}.
  split; [reflexivity |]. split; [| split; discriminate].
  intros rest input.
  rewrite (call_guarded_answer e rl rest c p input w store answer H), Hdeny.
  reflexivity.
Qed.

(** C6: whenever the limiter answers, allowing or denying, the response
    of the call carries X-RateLimit-Limit with the configured token budget
    and X-RateLimit-Remaining with the remaining budget of the answer: on
    an allowed call when control passes to the rest of the chain, on a
    denied call when the rejection is thrown. *)
Theorem quota_headers_always_set (opts : Opts) (w : World Store)
    (store : Store) (answer : RatelimitResponse) :
  limit rl (identifier (ctx opts) (path opts)) (redis w)
  = (store, Return answer) ->
  exists w1 : World Store,
    getHeader w1 (res (ctx opts)) "X-RateLimit-Limit"
    = Some (HString (env.UPSTASH_RATELIMITER_TOKENS_PER_TIME e)) /\
    getHeader w1 (res (ctx opts)) "X-RateLimit-Remaining"
    = Some (HNumber (remaining answer)) /\
    rateLimitMiddleware e rl opts w
    = if success answer
      then next opts None w1
      else (w1, Throw (ThrownTRPC rateLimitExceeded)).
Proof.
  intros H.
  destruct (afterGate_headers e (ctx opts) store answer w) as [HL HR].
  rewrite (rateLimitMiddleware_answer e rl opts w store answer H).
  destruct (success answer);
    eexists; (split; [| split; [| reflexivity]]); assumption.
Qed.

(** C7: the chain of the guarded class is the chain of the unguarded
    class with the rate-limit middleware in front; and a guarded call that
    the limiter allows is the unguarded call, with the same context, path
    and input, made in the world the gate leaves behind (counter store
    updated, quota headers set). *)
Theorem guarded_is_unguarded_behind_gate (c : Context) (p : string)
    (w : World Store) (store : Store) (answer : RatelimitResponse) :
  limit rl (identifier c p) (redis w) = (store, Return answer) ->
  success answer = true ->
  forall (rest : Chain) (input : Input),
    middlewares (extended (rateLimitedProcedure e rl) rest)
    = rateLimitMiddleware e rl :: middlewares (extended publicProcedure rest) /\
    call (extended (rateLimitedProcedure e rl) rest) c p input w
    = call (extended publicProcedure rest) c p input
        (afterGate e c store answer w).
Proof.
  intros H Hallow rest input. split; [reflexivity |].
  rewrite (call_guarded_answer e rl rest c p input w store answer H), Hallow.
  reflexivity.
Qed.

End GuardedCalls.

(** ** The identity key *)

Lemma identifier_path_inj (c1 c2 : Context) (p1 p2 : string) :
  ip c1 = ip c2 -> identifier c1 p1 = identifier c2 p2 -> p1 = p2.
Proof.
  unfold identifier. intros -> H.
  apply String.app_inj in H. apply String.app_inj in H. exact H.
Qed.

Lemma identifier_undefined (c : Context) (p : string) :
  ip c = None -> identifier c p = "undefined:" +:+ p.
Proof. unfold identifier. intros ->. reflexivity. Qed.

(** C9: the identity key is a function of the forwarded address and the
    path alone: contexts that agree on [ip] give the same key for the same
    path, whatever response they refer to; and that key is what the
    middleware asks the limiter about, whatever the world, the input and
    the rest of the chain are. *)
Theorem identity_resolver_pure {Input Data : Type} (e : env.t)
    (o1 o2 : MiddlewareOpts (Store := list string) (Input := Input) (Data := Data))
    (w1 w2 : World (list string)) :
  ip (ctx o1) = ip (ctx o2) ->
  path o1 = path o2 ->
  identifier (ctx o1) (path o1) = identifier (ctx o2) (path o2) /\
  identifier (ctx o1) (path o1) = JS.toString (ip (ctx o1)) +:+ ":" +:+ path o1 /\
  exists key : string,
    redis (fst (rateLimitMiddleware e recordingLimiter o1 w1))
    = redis w1 ++ [key] /\
    redis (fst (rateLimitMiddleware e recordingLimiter o2 w2))
    = redis w2 ++ [key].
Proof.
  intros Hip Hpath.
  assert (Hkey : identifier (ctx o1) (path o1) = identifier (ctx o2) (path o2)).
  { unfold identifier. now rewrite Hip, Hpath. }
  split; [exact Hkey |]. split; [reflexivity |].
  exists (identifier (ctx o1) (path o1)). split.
  - now rewrite (rateLimitMiddleware_answer e recordingLimiter o1 w1 _ _ eq_refl).
  - rewrite Hkey.
    now rewrite (rateLimitMiddleware_answer e recordingLimiter o2 w2 _ _ eq_refl).
Qed.

(** ** The quota decision *)

Lemma limit_reachable (tokens : JS.number) (window key : string)
    (store : CounterStore) (ms : Z) :
  reachable store = true ->
  durationMs window = Some ms ->
  limit (slidingWindow tokens window) key store
  = (counted key ms store,
     Return
       (if JS.gt (JS.Num (count_of store key + 1)) tokens
        then {| success := false; remaining := JS.Num 0 |}
        else {| success := true;
                remaining := JS.sub tokens (JS.Num (count_of store key + 1)) |})).
Proof.
  intros H Hms. unfold slidingWindow, incrementAndRead; simpl.
  now rewrite H, Hms.
Qed.

Lemma count_of_counted (key : string) (ms : Z) (store : CounterStore) :
  count_of (counted key ms store) key = count_of store key + 1.
Proof. unfold count_of, counted; simpl. now rewrite lookup_insert_eq. Qed.

Lemma limit_no_window (tokens : JS.number) (window key : string)
    (store : CounterStore) :
  reachable store = true ->
  durationMs window = None ->
  limit (slidingWindow tokens window) key store
  = (store,
     Throw (ThrownOther {| error_message := "Unable to parse window size" |})).
Proof.
  intros H Hms. unfold slidingWindow, incrementAndRead; simpl.
  now rewrite H, Hms.
Qed.

Lemma limit_unreachable (tokens : JS.number) (window key : string)
    (store : CounterStore) :
  reachable store = false ->
  limit (slidingWindow tokens window) key store
  = (store, Throw (ThrownOther {| error_message := "fetch failed" |})).
Proof.
  intros H. unfold slidingWindow, incrementAndRead; simpl. now rewrite H.
Qed.

(** C1: with a budget N and a reachable store, the limiter counts the
    call under its identity key and decides on the new count: up to N the
    call is allowed with remaining N - count, above N it is denied with
    remaining 0; the middleware of the call acts on that decision. *)
Theorem quota_decision {Input Data : Type} (e : env.t) (N : Z)
    (opts : MiddlewareOpts (Store := CounterStore) (Input := Input) (Data := Data))
    (w : World CounterStore) :
  JS.parseInt (env.UPSTASH_RATELIMITER_TOKENS_PER_TIME e) = JS.Num N ->
  reachable (redis w) = true ->
  exists (store : CounterStore) (answer : RatelimitResponse) (count : Z),
    limit (ratelimit e) (identifier (ctx opts) (path opts)) (redis w)
    = (store, Return answer) /\
    count = count_of (redis w) (identifier (ctx opts) (path opts)) + 1 /\
    count_of store (identifier (ctx opts) (path opts)) = count /\
    (count <= N ->
     success answer = true /\ remaining answer = JS.Num (N - count)) /\
    (N < count ->
     success answer = false /\ remaining answer = JS.Num 0) /\
    rateLimitMiddleware e (ratelimit e) opts w
    = if success answer
      then next opts None (afterGate e (ctx opts) store answer w)
      else
        ({| redis := store;
            responses := responses (afterGate e (ctx opts) store answer w);
            logged :=
              logged w
              ++ [rateLimitWarning (identifier (ctx opts) (path opts))] |},
         Throw (ThrownTRPC rateLimitExceeded)).
Proof.
  intros HN Hup. unfold ratelimit. rewrite HN.
  destruct (time_interval_ms e) as (ms & Hms & _).
  pose proof (limit_reachable (JS.Num N) (UPSTASH_RATELIMITER_TIME_INTERVAL e)
                (identifier (ctx opts) (path opts)) (redis w) ms Hup Hms) as Hl.
  eexists _, _, _. split; [exact Hl |]. split; [reflexivity |].
  split; [| split; [| split]].
  - apply count_of_counted.
  - intros Hle. simpl.
    destruct (Z.ltb_spec N (count_of (redis w) (identifier (ctx opts) (path opts)) + 1));
      [lia | split; reflexivity].
  - intros Hlt. simpl.
    destruct (Z.ltb_spec N (count_of (redis w) (identifier (ctx opts) (path opts)) + 1));
      [split; reflexivity | lia].
  - apply rateLimitMiddleware_answer. exact Hl.
Qed.

(** ** The window the gate counts in *)

(** The record of a new key, [d] milliseconds after the call that
    created it in a window of [ms] milliseconds. *)
Lemma counted_elapse (key : string) (ms d : Z) (store : CounterStore) :
  counts store !! key = None ->
  expiries (counted key ms store) !! key = Some (now store + ms) /\
  count_of (elapse d (counted key ms store)) key = if d <? ms then 1 else 0.
Proof.
  intros Hnew.
  assert (Hexp : expiries (counted key ms store) !! key
                 = Some (now store + ms)).
  { unfold counted; simpl. rewrite Hnew. apply lookup_insert_eq. }
  split; [exact Hexp |].
  assert (Hcount : counts (counted key ms store) !! key = Some 1).
  { unfold counted, count_of; simpl. rewrite Hnew; simpl.
    apply lookup_insert_eq. }
  assert (Hdead : expired (counted key ms store)
                    (now (counted key ms store) + d) key
                  = (ms <=? d)).
  { unfold expired. rewrite Hexp. cbn [now counted].
    destruct (Z.leb_spec (now store + ms) (now store + d)),
             (Z.leb_spec ms d); try reflexivity; lia. }
  unfold count_of, elapse. cbn [counts].
  destruct (Z.ltb_spec d ms) as [Hlt | Hge].
  - replace (filter _ _ !! key) with (Some 1); [reflexivity |].
    symmetry. apply map_lookup_filter_Some. split; [exact Hcount |].
    cbn [fst]. rewrite Hdead. apply Z.leb_gt. exact Hlt.
  - replace (filter _ _ !! key) with (@None Z); [reflexivity |].
    symmetry. apply map_lookup_filter_None. right.
    intros x _. cbn [fst]. rewrite Hdead.
    intros Hfalse. apply Z.leb_gt in Hfalse. lia.
Qed.

(** C5: a configured window that has the form <integer><unit>, with the
    unit one of ms, s, m, h, d, is the window of the module and of the
    gate; any other configured string is replaced by the default "1d",
    and the gate then counts in windows of one day: the record it opens
    for a new key ends the window's length after the call, the count is
    still there until then, and the key is absent again from then on. *)
Theorem time_interval_default (e : env.t) :
  (durationForm (env.UPSTASH_RATELIMITER_TIME_INTERVAL e) ->
   UPSTASH_RATELIMITER_TIME_INTERVAL e
   = env.UPSTASH_RATELIMITER_TIME_INTERVAL e) /\
  (~ durationForm (env.UPSTASH_RATELIMITER_TIME_INTERVAL e) ->
   UPSTASH_RATELIMITER_TIME_INTERVAL e = "1d"%string) /\
  forall (key : string) (store : CounterStore),
    reachable store = true ->
    counts store !! key = None ->
    exists ms : Z,
      (durationForm (env.UPSTASH_RATELIMITER_TIME_INTERVAL e) ->
       durationMs (env.UPSTASH_RATELIMITER_TIME_INTERVAL e) = Some ms) /\
      (~ durationForm (env.UPSTASH_RATELIMITER_TIME_INTERVAL e) ->
       ms = 86400000) /\
      expiries (fst (limit (ratelimit e) key store)) !! key
      = Some (now store + ms) /\
      forall d : Z,
        count_of (elapse d (fst (limit (ratelimit e) key store))) key
        = if d <? ms then 1 else 0.
Proof.
  split; [| split].
  - intros H. apply validateDuration_form in H.
    unfold UPSTASH_RATELIMITER_TIME_INTERVAL. now rewrite H.
  - intros H. unfold UPSTASH_RATELIMITER_TIME_INTERVAL.
    destruct (validateDuration (env.UPSTASH_RATELIMITER_TIME_INTERVAL e))
      eqn:Hv; [| reflexivity].
    exfalso. apply H, validateDuration_form, Hv.
  - intros key store Hup Hnew.
    destruct (time_interval_ms e) as (ms & Hms & Hvalid & Hdefault).
    exists ms. split; [| split].
    + intros H. apply Hvalid, validateDuration_form, H.
    + intros H. apply Hdefault.
      destruct (validateDuration (env.UPSTASH_RATELIMITER_TIME_INTERVAL e))
        eqn:Hv; [| reflexivity].
      exfalso. apply H, validateDuration_form, Hv.
    + unfold ratelimit.
      rewrite (limit_reachable _ _ key store ms Hup Hms). cbn [fst].
      destruct (counted_elapse key ms 0 store Hnew) as [Hexp _].
      split; [exact Hexp |].
      intros d. apply (counted_elapse key ms d store Hnew).
Qed.

(** ** Buckets *)

Lemma limit_answer_local (tokens : JS.number) (window key : string)
    (s1 s2 : CounterStore) :
  reachable s1 = reachable s2 ->
  count_of s1 key = count_of s2 key ->
  snd (limit (slidingWindow tokens window) key s1)
  = snd (limit (slidingWindow tokens window) key s2).
Proof.
  intros Hr Hc. destruct (reachable s2) eqn:H2.
  - destruct (durationMs window) as [ms |] eqn:Hms.
    + rewrite !(limit_reachable _ _ _ _ ms) by assumption. simpl.
      now rewrite Hc.
    + now rewrite !limit_no_window by assumption.
  - now rewrite !limit_unreachable by assumption.
Qed.

Lemma limit_other_key (tokens : JS.number) (window key other : string)
    (store : CounterStore) :
  key <> other ->
  reachable (fst (limit (slidingWindow tokens window) key store))
  = reachable store /\
  count_of (fst (limit (slidingWindow tokens window) key store)) other
  = count_of store other.
Proof.
  intros Hne. destruct (reachable store) eqn:Hr.
  - destruct (durationMs window) as [ms |] eqn:Hms.
    + rewrite (limit_reachable _ _ _ _ ms) by assumption.
      unfold count_of; simpl.
      split; [reflexivity |]. now rewrite lookup_insert_ne.
    + rewrite limit_no_window by assumption. simpl. auto.
  - rewrite limit_unreachable by assumption. simpl. auto.
Qed.

Lemma consume_other_key (tokens : JS.number) (window key other : string)
    (k : nat) : forall store : CounterStore,
  key <> other ->
  reachable (consume (slidingWindow tokens window) key k store)
  = reachable store /\
  count_of (consume (slidingWindow tokens window) key k store) other
  = count_of store other.
Proof.
  induction k as [| k IH]; intros store Hne; cbn [consume]; [auto |].
  destruct (IH (fst (limit (slidingWindow tokens window) key store)) Hne)
    as [-> ->].
  now apply limit_other_key.
Qed.

(** C4: calls with the same forwarded address have the same identity key
    for the same operation path and different keys for different paths;
    so whatever number of calls of operation A an address has made, the
    limiter gives its call of another operation B the answer it would have
    given without them. *)
Theorem per_operation_isolation (c1 c2 : Context) (pA pB : string) :
  ip c1 = ip c2 ->
  identifier c1 pA = identifier c2 pA /\
  (pA <> pB ->
   identifier c1 pA <> identifier c2 pB /\
   forall (e : env.t) (k : nat) (store : CounterStore),
     snd (limit (ratelimit e) (identifier c2 pB)
            (consume (ratelimit e) (identifier c1 pA) k store))
     = snd (limit (ratelimit e) (identifier c2 pB) store)).
Proof.
  intros Hip. split.
  - unfold identifier. now rewrite Hip.
  - intros Hne.
    assert (Hkeys : identifier c1 pA <> identifier c2 pB).
    { intros H. apply Hne. exact (identifier_path_inj c1 c2 pA pB Hip H). }
    split; [exact Hkeys |].
    intros e k store. unfold ratelimit.
    destruct (consume_other_key
                (JS.parseInt (env.UPSTASH_RATELIMITER_TOKENS_PER_TIME e))
                (UPSTASH_RATELIMITER_TIME_INTERVAL e)
                (identifier c1 pA) (identifier c2 pB) k store Hkeys)
      as [Hr Hc].
    now apply limit_answer_local.
Qed.

(** C10: a request without the forwarded-address header gets the identity
    key "undefined:" followed by the path; so two such requests for one
    operation have the same key, and the limiter counts the call of the
    second on top of the call of the first, against the one budget N. *)
Theorem headerless_callers_share_bucket (o1 o2 : CreateNextContextOptions)
    (p : string) :
  headers (req o1) !! "x-forwarded-for" = None ->
  headers (req o2) !! "x-forwarded-for" = None ->
  identifier (createTRPCContext o1) p = "undefined:" +:+ p /\
  identifier (createTRPCContext o2) p = identifier (createTRPCContext o1) p /\
  forall (e : env.t) (N : Z) (store : CounterStore),
    JS.parseInt (env.UPSTASH_RATELIMITER_TOKENS_PER_TIME e) = JS.Num N ->
    reachable store = true ->
    snd (limit (ratelimit e) (identifier (createTRPCContext o2) p)
           (fst (limit (ratelimit e) (identifier (createTRPCContext o1) p)
                   store)))
    = Return
        (if N <? count_of store ("undefined:" +:+ p) + 2
         then {| success := false; remaining := JS.Num 0 |}
         else {| success := true;
                 remaining :=
                   JS.Num (N - (count_of store ("undefined:" +:+ p) + 2)) |}).
Proof.
  intros H1 H2.
  assert (K1 : identifier (createTRPCContext o1) p = "undefined:" +:+ p).
  { apply identifier_undefined. exact H1. }
  assert (K2 : identifier (createTRPCContext o2) p = "undefined:" +:+ p).
  { apply identifier_undefined. exact H2. }
  split; [exact K1 |]. split; [congruence |].
  intros e N store HN Hup. rewrite K1, K2. unfold ratelimit. rewrite HN.
  destruct (time_interval_ms e) as (ms & Hms & _).
  rewrite (limit_reachable _ _ _ store ms Hup Hms). cbn [fst].
  rewrite (limit_reachable _ _ _ (counted _ ms store) ms eq_refl Hms).
  cbn [snd]. rewrite count_of_counted.
  replace (count_of store ("undefined:" +:+ p) + 1 + 1)
    with (count_of store ("undefined:" +:+ p) + 2) by lia.
  cbn [JS.gt JS.sub]. destruct (N <? _); reflexivity.
Qed.

(** ** The token budget *)

Lemma isDigit_value (c : ascii) :
  JS.isDigit c = true ->
  JS.decValue c = Some (JS.digitValue c) /\
  0 <= JS.digitValue c <= 9 /\
  (Ascii.eqb c "0" = false -> 0 < JS.digitValue c).
Proof.
  intros Hd. unfold JS.decValue. rewrite Hd. split; [reflexivity |].
  unfold JS.isDigit, JS.digitValue in *.
  apply andb_true_iff in Hd as [Hlo Hhi].
  apply Nat.leb_le in Hlo. apply Nat.leb_le in Hhi.
  split; [lia |]. intros Hz.
  assert (nat_of_ascii c <> 48%nat); [| lia].
  intros E. apply (f_equal ascii_of_nat) in E.
  rewrite ascii_nat_embedding in E. subst c. discriminate Hz.
Qed.

(** A digit is neither white space, nor a sign, nor the [x] of a
    hexadecimal prefix. *)
Lemma isDigit_plain (c : ascii) :
  JS.isDigit c = true ->
  JS.isWhiteSpace c = false /\
  Ascii.eqb c "-" = false /\ Ascii.eqb c "+" = false /\
  Ascii.eqb c "x" = false /\ Ascii.eqb c "X" = false.
Proof.
  intros Hd. unfold JS.isDigit, JS.isWhiteSpace in *.
  apply andb_true_iff in Hd as [Hlo Hhi].
  apply Nat.leb_le in Hlo. apply Nat.leb_le in Hhi.
  split.
  - apply orb_false_iff. split.
    + apply andb_false_iff. right. apply Nat.leb_gt. lia.
    + apply Nat.eqb_neq. lia.
  - repeat split;
      match goal with
      | |- Ascii.eqb c ?d = false =>
          destruct (Ascii.eqb_spec c d) as [-> |];
            [vm_compute in Hlo, Hhi; lia | reflexivity]
      end.
Qed.

Lemma digitsPrefix_decimal (s : list ascii) : forall acc : Z,
  forallb JS.isDigit s = true ->
  JS.digitsPrefix JS.decValue 10 (Some acc) s
  = Some (fold_left (fun acc c => acc * 10 + JS.digitValue c) s acc).
Proof.
  induction s as [| c s IH]; intros acc Hall; simpl; [reflexivity |].
  simpl in Hall. apply andb_true_iff in Hall as [Hc Hall].
  destruct (isDigit_value c Hc) as (-> & _). now apply IH.
Qed.

(** A word of decimal digits is read by [parseInt] as the number the
    digits denote: no white space, sign or hexadecimal prefix is found in
    it. *)
Lemma parseInt_digits (value : string) :
  list_ascii_of_string value <> [] ->
  forallb JS.isDigit (list_ascii_of_string value) = true ->
  JS.parseInt value
  = JS.fromInteger (JS.decimalValue (list_ascii_of_string value)).
Proof.
  unfold JS.parseInt.
  destruct (list_ascii_of_string value) as [| c s]; [congruence |].
  intros _ Hall. pose proof Hall as Hall'. simpl in Hall'.
  apply andb_true_iff in Hall' as [Hc Hs].
  destruct (isDigit_plain c Hc) as (Hws & Hminus & Hplus & _).
  cbn [JS.trimStart]. rewrite Hws, Hminus, Hplus.
  assert (Hmag : JS.parseMagnitude (c :: s)
                 = JS.digitsPrefix JS.decValue 10 None (c :: s)).
  { unfold JS.parseMagnitude. destruct s as [| c1 s']; [reflexivity |].
    simpl in Hs. apply andb_true_iff in Hs as [Hc1 _].
    destruct (isDigit_plain c1 Hc1) as (_ & _ & _ & -> & ->).
    now rewrite andb_false_r. }
  rewrite Hmag. cbn [JS.digitsPrefix].
  destruct (isDigit_value c Hc) as (-> & _).
  rewrite (digitsPrefix_decimal s _ Hs).
  unfold JS.decimalValue. cbn [fold_left]. rewrite Z.mul_1_l.
  reflexivity.
Qed.

(** A budget the validation accepts is read by [parseInt] as a positive
    integer. *)
Lemma parseInt_positive (value : string) :
  isPositiveInteger value = true ->
  exists N : Z, 0 < N /\ JS.parseInt value = JS.Num N.
Proof.
  unfold isPositiveInteger. intros H.
  assert (Hne : list_ascii_of_string value <> []).
  { destruct (list_ascii_of_string value); [discriminate | discriminate]. }
  destruct (list_ascii_of_string value) as [| c s] eqn:E; [congruence |].
  apply andb_true_iff in H as [Hall Hnum].
  pose proof (parseInt_digits value) as Hparse. rewrite E in Hparse.
  specialize (Hparse Hne Hall).
  destruct (JS.fromInteger (JS.decimalValue (c :: s))) as [| N | neg];
    try discriminate Hnum.
  exists N. split; [now apply Z.ltb_lt | exact Hparse].
Qed.

(** What [parseInt] alone makes of a configured budget. *)
Example parseInt_samples :
  JS.parseInt "10" = JS.Num 10 /\
  JS.parseInt "12px" = JS.Num 12 /\
  JS.parseInt "0" = JS.Num 0 /\
  JS.parseInt "-5" = JS.Num (-5) /\
  JS.parseInt "ten" = JS.NaN.
Proof. repeat split. Qed.

(** Beyond 53 bits a number is rounded to the nearest double, ties to
    even, and beyond the largest double it is an infinity. *)
Example fromInteger_samples :
  JS.parseInt "9007199254740993" = JS.Num 9007199254740992 /\
  JS.fromInteger (2 ^ 53 + 3) = JS.Num (2 ^ 53 + 4) /\
  JS.fromInteger (2 ^ 1024 - 2 ^ 970 - 1) = JS.Num (2 ^ 1024 - 2 ^ 971) /\
  JS.fromInteger (2 ^ 1024 - 2 ^ 970) = JS.Infinity false /\
  JS.fromInteger (10 ^ 308) <> JS.Infinity false /\
  JS.fromInteger (10 ^ 309) = JS.Infinity false /\
  JS.fromInteger (- 10 ^ 309) = JS.Infinity true.
Proof. repeat split; try (vm_compute; reflexivity); vm_compute; discriminate. Qed.

(** C8: the process only comes up with a limiter when the configured
    token budget passed the validation of the environment, and the budget
    the limiter is then built with is a positive integer; any other value
    stops the start, so no call is gated with it. *)
Theorem token_budget_validated (raw : env.t) :
  (isPositiveInteger (env.UPSTASH_RATELIMITER_TOKENS_PER_TIME raw) = false ->
   startup raw = None) /\
  (forall gate : Ratelimit CounterStore,
     startup raw = Some gate ->
     exists N : Z,
       0 < N /\
       JS.parseInt (env.UPSTASH_RATELIMITER_TOKENS_PER_TIME raw) = JS.Num N /\
       gate = slidingWindow (JS.Num N) (UPSTASH_RATELIMITER_TIME_INTERVAL raw)).
Proof.
  unfold startup, validateEnv. split.
  - intros ->. reflexivity.
  - intros gate.
    destruct (isPositiveInteger (env.UPSTASH_RATELIMITER_TOKENS_PER_TIME raw))
      eqn:Hv; [| discriminate].
    intros [= <-].
    destruct (parseInt_positive _ Hv) as (N & HN & Hparse).
    exists N. unfold ratelimit. rewrite Hparse. auto.
Qed.

(** ** The statements on sample calls *)

Lemma quota_decision_witness :
  exists (store : CounterStore) (answer : RatelimitResponse) (count : Z),
    limit (ratelimit sampleEnv) (identifier sampleCaller samplePath)
      (redis (sampleWorld 1))
    = (store, Return answer) /\
    count = 2 /\
    count_of store (identifier sampleCaller samplePath) = count /\
    (count <= 2 -> success answer = true /\ remaining answer = JS.Num (2 - count)) /\
    (2 < count -> success answer = false /\ remaining answer = JS.Num 0) /\
    rateLimitMiddleware sampleEnv (ratelimit sampleEnv)
      (sampleOpts sampleCaller) (sampleWorld 1)
    = if success answer
      then (afterGate sampleEnv sampleCaller store answer (sampleWorld 1),
            Return (ok "sunny"%string))
      else
        ({| redis := store;
            responses :=
              responses (afterGate sampleEnv sampleCaller store answer
                           (sampleWorld 1));
            logged := [rateLimitWarning (identifier sampleCaller samplePath)] |},
         Throw (ThrownTRPC rateLimitExceeded)).
Proof.
  exact (quota_decision sampleEnv 2 (sampleOpts sampleCaller) (sampleWorld 1)
           eq_refl eq_refl).
Defined.



Lemma time_interval_default_witness :
  UPSTASH_RATELIMITER_TIME_INTERVAL (env_of "10" "5 days") = "1d"%string /\
  expiries (fst (limit (ratelimit (env_of "10" "5 days")) samplePath emptyStore))
    !! samplePath = Some 86400000 /\
  count_of (elapse 86399999
              (fst (limit (ratelimit (env_of "10" "5 days")) samplePath
                      emptyStore)))
    samplePath = 1 /\
  count_of (elapse 86400000
              (fst (limit (ratelimit (env_of "10" "5 days")) samplePath
                      emptyStore)))
    samplePath = 0.
Proof.
  assert (Hbad : ~ durationForm "5 days").
  { intros H. apply validateDuration_form in H. vm_compute in H.
    discriminate H. }
  destruct (time_interval_default (env_of "10" "5 days"))
    as (_ & Hdefault & Hgate).
  destruct (Hgate samplePath emptyStore eq_refl eq_refl)
    as (ms & _ & Hday & Hends & Hcount).
  rewrite (Hday Hbad) in Hends, Hcount.
  split; [exact (Hdefault Hbad) |]. split; [exact Hends |].
  split; [exact (Hcount 86399999) | exact (Hcount 86400000)].
Defined.

Lemma quota_rejection_witness :
  exists w' : World CounterStore,
    logged w'
    = [{| level := warn;
          log_message := "Rate limit exceeded";
          fields := [("ip", "203.0.113.7:search.findCitiesByName")] |}] /\
    call sampleProcedure sampleCaller samplePath tt (sampleWorld 2)
    = (w', Throw (ThrownTRPC {| code := INTERNAL_SERVER_ERROR;
                                message := "Rate limit exceeded";
                                cause := None |})).
Proof.
  destruct (quota_rejection (Input := unit) (Data := string)
              sampleEnv (ratelimit sampleEnv) sampleCaller samplePath
              (sampleWorld 2)
              (fst (limit (ratelimit sampleEnv)
                      (identifier sampleCaller samplePath)
                      (redis (sampleWorld 2))))
              {| success := false; remaining := JS.Num 0 |}
              ltac:(vm_compute; reflexivity) eq_refl)
    as (w' & Hlog & Hcall & _).
  exists w'. split; [exact Hlog |].
  exact (Hcall [resolverMiddleware sampleResolver] tt).
Defined.

(** C3, as stated, fails on the code: the rejection of a call over its
    budget does not carry a code that means "quota exceeded".  The third
    call of the sample operation under a budget of two is rejected with
    the code INTERNAL_SERVER_ERROR (status 500), not TOO_MANY_REQUESTS
    (status 429), and that is the very code a call fails with when the
    store cannot be reached. *)
Lemma quota_rejection_code_counterexample :
  exists (denied failed : TRPCError),
    snd (call sampleProcedure sampleCaller samplePath tt (sampleWorld 2))
    = Throw (ThrownTRPC denied) /\
    snd (call sampleProcedure sampleCaller samplePath tt outageWorld)
    = Throw (ThrownTRPC failed) /\
    code denied <> TOO_MANY_REQUESTS /\
    httpStatus (code denied) = 500 /\
    code denied = code failed.
Proof.
  eexists _, _. split; [vm_compute; reflexivity |].
  split; [vm_compute; reflexivity |].
  split; [discriminate |]. split; reflexivity.
Qed.

Lemma per_operation_isolation_witness :
  identifier sampleCaller samplePath
  <> identifier sampleCaller "search.findCityById" /\
  snd (limit (ratelimit sampleEnv)
         (identifier sampleCaller "search.findCityById")
         (consume (ratelimit sampleEnv) (identifier sampleCaller samplePath)
            5 (redis (sampleWorld 0))))
  = Return {| success := true; remaining := JS.Num 1 |}.
Proof.
  destruct (per_operation_isolation sampleCaller sampleCaller samplePath
              "search.findCityById" eq_refl) as [_ H].
  destruct (H ltac:(discriminate)) as [Hkeys Hsame].
  split; [exact Hkeys |].
  rewrite (Hsame sampleEnv 5%nat (redis (sampleWorld 0))).
  vm_compute. reflexivity.
Defined.

Lemma quota_headers_always_set_witness :
  exists w1 : World CounterStore,
    getHeader w1 0%nat "X-RateLimit-Limit" = Some (HString "2") /\
    getHeader w1 0%nat "X-RateLimit-Remaining" = Some (HNumber (JS.Num 0)) /\
    rateLimitMiddleware sampleEnv (ratelimit sampleEnv)
      (sampleOpts sampleCaller) (sampleWorld 2)
    = (w1, Throw (ThrownTRPC rateLimitExceeded)).
Proof.
  exact (quota_headers_always_set sampleEnv (ratelimit sampleEnv)
           (sampleOpts sampleCaller) (sampleWorld 2)
           (fst (limit (ratelimit sampleEnv)
                   (identifier sampleCaller samplePath)
                   (redis (sampleWorld 2))))
           {| success := false; remaining := JS.Num 0 |}
           ltac:(vm_compute; reflexivity)).
Defined.

Lemma guarded_is_unguarded_behind_gate_witness :
  call sampleProcedure sampleCaller samplePath tt (sampleWorld 0)
  = call (query publicProcedure sampleResolver) sampleCaller samplePath tt
      (afterGate sampleEnv sampleCaller
         (fst (limit (ratelimit sampleEnv)
                 (identifier sampleCaller samplePath)
                 (redis (sampleWorld 0))))
         {| success := true; remaining := JS.Num 1 |}
         (sampleWorld 0)).
Proof.
  exact (proj2 (guarded_is_unguarded_behind_gate sampleEnv
                  (ratelimit sampleEnv) sampleCaller samplePath (sampleWorld 0)
                  (fst (limit (ratelimit sampleEnv)
                          (identifier sampleCaller samplePath)
                          (redis (sampleWorld 0))))
                  {| success := true; remaining := JS.Num 1 |}
                  ltac:(vm_compute; reflexivity) eq_refl
                  [resolverMiddleware sampleResolver] tt)).
Defined.

Lemma token_budget_validated_witness :
  startup (env_of "0" "1d") = None /\
  exists N : Z,
    0 < N /\
    JS.parseInt "2" = JS.Num N /\
    ratelimit sampleEnv = slidingWindow (JS.Num N) "10s".
Proof.
  split.
  - exact (proj1 (token_budget_validated (env_of "0" "1d")) eq_refl).
  - exact (proj2 (token_budget_validated sampleEnv) (ratelimit sampleEnv)
             eq_refl).
Defined.

Lemma identity_resolver_pure_witness :
  identifier sampleCaller samplePath
  = identifier {| ip := Some "203.0.113.7"; res := 9%nat |} samplePath /\
  identifier sampleCaller samplePath
  = "203.0.113.7:search.findCitiesByName"%string /\
  exists key : string,
    redis (fst (rateLimitMiddleware sampleEnv recordingLimiter
                  (sampleOpts sampleCaller)
                  {| redis := []; responses := ∅; logged := [] |}))
    = [] ++ [key] /\
    redis (fst (rateLimitMiddleware sampleEnv recordingLimiter
                  (sampleOpts {| ip := Some "203.0.113.7"; res := 9%nat |})
                  {| redis := ["a:b"%string]; responses := ∅; logged := [] |}))
    = ["a:b"%string] ++ [key].
Proof.
  exact (identity_resolver_pure sampleEnv
           (sampleOpts sampleCaller)
           (sampleOpts {| ip := Some "203.0.113.7"; res := 9%nat |})
           {| redis := []; responses := ∅; logged := [] |}
           {| redis := ["a:b"%string]; responses := ∅; logged := [] |}
           eq_refl eq_refl).
Defined.

Lemma headerless_callers_share_bucket_witness :
  identifier (createTRPCContext directRequest) samplePath
  = "undefined:search.findCitiesByName"%string /\
  identifier (createTRPCContext otherDirectRequest) samplePath
  = identifier (createTRPCContext directRequest) samplePath /\
  snd (limit (ratelimit sampleEnv)
         (identifier (createTRPCContext otherDirectRequest) samplePath)
         (fst (limit (ratelimit sampleEnv)
                 (identifier (createTRPCContext directRequest) samplePath)
                 {| reachable := true;
                    counts := {[ "undefined:search.findCitiesByName"%string := 1 ]};
                    now := 0;
                    expiries := {[ "undefined:search.findCitiesByName"%string := 10000 ]} |})))
  = Return {| success := false; remaining := JS.Num 0 |}.
Proof.
  destruct (headerless_callers_share_bucket directRequest otherDirectRequest
              samplePath ltac:(vm_compute; reflexivity)
              ltac:(vm_compute; reflexivity)) as (K1 & K2 & Hshared).
  split; [exact K1 |]. split; [exact K2 |].
  rewrite (Hshared sampleEnv 2
             {| reachable := true;
                counts := {[ "undefined:search.findCitiesByName"%string := 1 ]};
                now := 0;
                expiries := {[ "undefined:search.findCitiesByName"%string := 10000 ]} |}
             eq_refl eq_refl).
  vm_compute. reflexivity.
Defined.

(** * Further properties of the module *)

(** ** The window handed to the limiter *)

(** X1: Whatever is configured, the limiter is built with a window that
    passes the duration check (the fallback "1d" is itself well formed),
    so the store can always open a window of it: on a reachable store
    [limit] answers and never fails on its window. *)
Theorem time_interval_always_valid (e : env.t) :
  validateDuration (UPSTASH_RATELIMITER_TIME_INTERVAL e) = true /\
  forall (key : string) (store : CounterStore),
    reachable store = true ->
    exists (store' : CounterStore) (answer : RatelimitResponse),
      limit (ratelimit e) key store = (store', Return answer).
Proof.
  split.
  - unfold UPSTASH_RATELIMITER_TIME_INTERVAL.
    destruct (validateDuration (env.UPSTASH_RATELIMITER_TIME_INTERVAL e))
      eqn:H; [exact H | reflexivity].
  - intros key store Hup.
    destruct (time_interval_ms e) as (ms & Hms & _).
    unfold ratelimit. rewrite (limit_reachable _ _ key store ms Hup Hms).
    eauto.
Qed.

Lemma time_interval_always_valid_witness :
  exists (store' : CounterStore) (answer : RatelimitResponse),
    limit (ratelimit (env_of "10" "5x")) samplePath emptyStore
    = (store', Return answer).
Proof.
  exact (proj2 (time_interval_always_valid (env_of "10" "5x"))
           samplePath emptyStore eq_refl).
Defined.

Lemma In_durationUnits_chars (unit : string) :
  In unit durationUnits ->
  unit <> ""%string /\
  Forall (fun c => In c ["m"; "s"; "h"; "d"]%char) (list_ascii_of_string unit) /\
  exists body last,
    list_ascii_of_string unit = body ++ [last] /\
    In last ["s"; "m"; "h"; "d"]%char.
Proof.
  unfold durationUnits. simpl.
  intros [<- | [<- | [<- | [<- | [<- | []]]]]]; simpl;
    (split; [discriminate |]); (split; [repeat constructor; simpl; tauto |]).
  - exists ["m"%char], "s"%char. simpl. tauto.
  - exists [], "s"%char. simpl. tauto.
  - exists [], "m"%char. simpl. tauto.
  - exists [], "h"%char. simpl. tauto.
  - exists [], "d"%char. simpl. tauto.
Qed.

(** X2: An accepted window has at least two characters, starts with a digit,
    ends with s, m, h or d, and holds nothing but digits and those four
    letters: no sign, no space, no decimal point, no upper case. *)
Theorem validateDuration_shape (value : string) :
  validateDuration value = true ->
  exists (first last : ascii) (middle : list ascii),
    list_ascii_of_string value = first :: middle ++ [last] /\
    JS.isDigit first = true /\
    In last ["s"; "m"; "h"; "d"]%char /\
    Forall (fun c => JS.isDigit c = true \/ In c ["m"; "s"; "h"; "d"]%char)
      (list_ascii_of_string value).
Proof.
  intros H. apply validateDuration_form in H
    as (digits & unit & Hne & Hd & Hu & ->).
  rewrite list_ascii_of_string_append, list_ascii_of_string_of_list_ascii.
  destruct (In_durationUnits_chars unit Hu) as (_ & Hchars & body & last & Eu & Hl).
  destruct digits as [| first digits]; [congruence |].
  exists first, last, (digits ++ body). split; [| split; [| split]].
  - rewrite Eu. simpl. now rewrite <- app_assoc.
  - now inversion Hd.
  - exact Hl.
  - apply Forall_app. split.
    + eapply Forall_impl; [exact Hd |]. simpl. auto.
    + eapply Forall_impl; [exact Hchars |]. simpl. auto.
Qed.

Lemma validateDuration_shape_witness :
  exists (first last : ascii) (middle : list ascii),
    list_ascii_of_string "15ms" = first :: middle ++ [last] /\
    JS.isDigit first = true /\
    In last ["s"; "m"; "h"; "d"]%char /\
    Forall (fun c => JS.isDigit c = true \/ In c ["m"; "s"; "h"; "d"]%char)
      (list_ascii_of_string "15ms").
Proof. exact (validateDuration_shape "15ms" eq_refl). Defined.

(** ** More on the identity key *)

Lemma list_ascii_of_string_inj (s1 s2 : string) :
  list_ascii_of_string s1 = list_ascii_of_string s2 -> s1 = s2.
Proof.
  intros H. rewrite <- (string_of_list_ascii_of_string s1),
    <- (string_of_list_ascii_of_string s2). now rewrite H.
Qed.

Lemma identifier_chars (c : Context) (p : string) :
  list_ascii_of_string (identifier c p)
  = list_ascii_of_string (JS.toString (ip c))
    ++ ":"%char :: list_ascii_of_string p.
Proof.
  unfold identifier. now rewrite !list_ascii_of_string_append.
Qed.

(** Two words cut at their last colon. *)
Lemma split_at_last_colon (a : list ascii) : forall (b p1 p2 : list ascii),
  forallb (fun c => negb (Ascii.eqb c ":")) p1 = true ->
  forallb (fun c => negb (Ascii.eqb c ":")) p2 = true ->
  a ++ ":"%char :: p1 = b ++ ":"%char :: p2 ->
  a = b /\ p1 = p2.
Proof.
  assert (Hno : forall (x p : list ascii),
             forallb (fun c => negb (Ascii.eqb c ":")) (x ++ ":"%char :: p)
             = true -> False).
  { intros x p H. rewrite forallb_app in H.
    apply andb_true_iff in H as [_ H]. simpl in H. discriminate H. }
  induction a as [| x a IH]; intros [| y b] p1 p2 H1 H2 E; simpl in E.
  - injection E as ->. auto.
  - injection E as <- ->. destruct (Hno _ _ H1).
  - injection E as -> <-. destruct (Hno _ _ H2).
  - injection E as -> E. destruct (IH b p1 p2 H1 H2 E) as [-> ->]. auto.
Qed.

(** X3: For operation paths without a colon the identity key tells both the
    printed address and the path: two calls share a key only when they
    agree on both. *)
Theorem identifier_injective (c1 c2 : Context) (p1 p2 : string) :
  colonFree p1 = true ->
  colonFree p2 = true ->
  identifier c1 p1 = identifier c2 p2 ->
  JS.toString (ip c1) = JS.toString (ip c2) /\ p1 = p2.
Proof.
  intros H1 H2 E. apply (f_equal list_ascii_of_string) in E.
  rewrite !identifier_chars in E.
  destruct (split_at_last_colon _ _ _ _ H1 H2 E) as [Ha Hp].
  split; apply list_ascii_of_string_inj; assumption.
Qed.

Lemma identifier_injective_witness :
  JS.toString (ip sampleCaller) = JS.toString (Some "203.0.113.7"%string) /\
  samplePath = "search.findCitiesByName"%string.
Proof.
  exact (identifier_injective sampleCaller
           {| ip := Some "203.0.113.7"%string; res := 4%nat |}
           samplePath "search.findCitiesByName" eq_refl eq_refl eq_refl).
Defined.

(** X4: Two requests are counted in the same bucket of an operation exactly
    when their forwarded-address headers print the same; so a request
    without the header shares its bucket with exactly the requests that
    have none or whose header is the word "undefined". *)
Theorem same_bucket_iff (o1 o2 : CreateNextContextOptions) (p : string) :
  (identifier (createTRPCContext o1) p = identifier (createTRPCContext o2) p
   <-> JS.toString (headers (req o1) !! "x-forwarded-for")
       = JS.toString (headers (req o2) !! "x-forwarded-for")) /\
  (headers (req o1) !! "x-forwarded-for" = None ->
   (identifier (createTRPCContext o1) p = identifier (createTRPCContext o2) p
    <-> headers (req o2) !! "x-forwarded-for" = None \/
        headers (req o2) !! "x-forwarded-for" = Some "undefined"%string)).
Proof.
  assert (Hiff :
    identifier (createTRPCContext o1) p = identifier (createTRPCContext o2) p
    <-> JS.toString (headers (req o1) !! "x-forwarded-for")
        = JS.toString (headers (req o2) !! "x-forwarded-for")).
  { unfold identifier, createTRPCContext; simpl. split.
    - intros E. apply (f_equal list_ascii_of_string) in E.
      rewrite !list_ascii_of_string_append in E.
      apply app_inv_tail in E. now apply list_ascii_of_string_inj.
    - now intros ->. }
  split; [exact Hiff |].
  intros Hnone. rewrite Hiff, Hnone.
  destruct (headers (req o2) !! "x-forwarded-for") as [v |]; simpl; split.
  - intros <-. auto.
  - intros [H | H]; [discriminate H | now injection H as ->].
  - auto.
  - auto.
Qed.

Lemma same_bucket_iff_witness :
  identifier (createTRPCContext directRequest) samplePath
  = identifier (createTRPCContext undefinedRequest) samplePath.
Proof.
  apply (proj2 (same_bucket_iff directRequest undefinedRequest samplePath)
           ltac:(vm_compute; reflexivity)).
  right. vm_compute. reflexivity.
Defined.

(** ** What the middleware leaves alone *)

Section MiddlewareFrame.

Context {Store Input Data : Type}.
Variable e : env.t.
Variable rl : Ratelimit Store.

Local Abbreviation Opts :=
  (MiddlewareOpts (Store := Store) (Input := Input) (Data := Data)).
Local Abbreviation Chain :=
  (list (MiddlewareFunction (Store := Store) (Input := Input) (Data := Data))).

(** X5: When the limiter answers, the world the middleware hands on (to the
    rest of the chain, or with the rejection) differs from the one it was
    given only in the store, in the two quota headers of the response of
    the call and, on a rejection, in one more warning: every other
    response, every header of this response whose name is not one of the
    two (in any spelling of upper and lower case) and, on an allowed
    call, the log are untouched. *)
Theorem rateLimitMiddleware_frame (opts : Opts) (w : World Store)
    (store : Store) (answer : RatelimitResponse) :
  limit rl (identifier (ctx opts) (path opts)) (redis w)
  = (store, Return answer) ->
  exists w1 : World Store,
    rateLimitMiddleware e rl opts w
    = (if success answer
       then next opts None w1
       else (w1, Throw (ThrownTRPC rateLimitExceeded))) /\
    redis w1 = store /\
    (forall other : nat,
       other <> res (ctx opts) -> responses w1 !! other = responses w !! other) /\
    (forall name : string,
       JS.toLowerCase name <> JS.toLowerCase "X-RateLimit-Limit" ->
       JS.toLowerCase name <> JS.toLowerCase "X-RateLimit-Remaining" ->
       getHeader w1 (res (ctx opts)) name = getHeader w (res (ctx opts)) name) /\
    logged w1
    = (if success answer
       then logged w
       else logged w ++ [rateLimitWarning (identifier (ctx opts) (path opts))]).
Proof.
  intros H.
  rewrite (rateLimitMiddleware_answer e rl opts w store answer H).
  assert (Hother : forall other : nat,
            other <> res (ctx opts) ->
            responses (afterGate e (ctx opts) store answer w) !! other
            = responses w !! other).
  { intros other Hne. unfold afterGate; simpl.
    now rewrite lookup_insert_ne by congruence. }
  assert (Hname : forall name : string,
            JS.toLowerCase name <> JS.toLowerCase "X-RateLimit-Limit" ->
            JS.toLowerCase name <> JS.toLowerCase "X-RateLimit-Remaining" ->
            getHeader (afterGate e (ctx opts) store answer w)
              (res (ctx opts)) name
            = getHeader w (res (ctx opts)) name).
  { intros name H1 H2.
    change (JS.toLowerCase "X-RateLimit-Limit")
      with "x-ratelimit-limit"%string in H1.
    change (JS.toLowerCase "X-RateLimit-Remaining")
      with "x-ratelimit-remaining"%string in H2.
    unfold getHeader, afterGate. cbn [responses].
    rewrite lookup_insert_eq. cbn [default from_option id].
    now rewrite !lookup_insert_ne by congruence. }
  destruct (success answer); eexists; (split; [reflexivity |]);
    repeat split; assumption.
Qed.

(** X6: From the request to the response: a guarded call made with the
    context of a request asks the limiter about the printed header and the
    path, and when the limiter answers, the quota headers are on the
    response object of that very request, both when the call goes on as
    the unguarded one and when it is rejected. *)
Theorem guarded_call_of_request (o : CreateNextContextOptions) (p : string)
    (w : World Store) (store : Store) (answer : RatelimitResponse)
    (rest : Chain) (input : Input) :
  limit rl
    (JS.toString (headers (req o) !! "x-forwarded-for") +:+ ":" +:+ p)
    (redis w)
  = (store, Return answer) ->
  exists w1 : World Store,
    getHeader w1 (opts_res o) "X-RateLimit-Limit"
    = Some (HString (env.UPSTASH_RATELIMITER_TOKENS_PER_TIME e)) /\
    getHeader w1 (opts_res o) "X-RateLimit-Remaining"
    = Some (HNumber (remaining answer)) /\
    call (extended (rateLimitedProcedure e rl) rest)
      (createTRPCContext o) p input w
    = if success answer
      then call (extended publicProcedure rest) (createTRPCContext o) p input w1
      else (w1, Throw (ThrownTRPC rateLimitExceeded)).
Proof.
  intros H.
  rewrite (call_guarded_answer e rl rest (createTRPCContext o) p input w
             store answer H).
  destruct (afterGate_headers e (createTRPCContext o) store answer w)
    as [HL HR].
  destruct (success answer);
    eexists; (split; [| split; [| reflexivity]]); assumption.
Qed.

End MiddlewareFrame.

Lemma rateLimitMiddleware_frame_witness :
  exists w1 : World CounterStore,
    rateLimitMiddleware sampleEnv (ratelimit sampleEnv)
      (sampleOpts sampleCaller) (sampleWorld 0)
    = (w1, Return (ok "sunny"%string)) /\
    redis w1
    = fst (limit (ratelimit sampleEnv) (identifier sampleCaller samplePath)
             (redis (sampleWorld 0))) /\
    (forall other : nat,
       other <> 0%nat -> responses w1 !! other = responses (sampleWorld 0) !! other) /\
    (forall name : string,
       JS.toLowerCase name <> JS.toLowerCase "X-RateLimit-Limit" ->
       JS.toLowerCase name <> JS.toLowerCase "X-RateLimit-Remaining" ->
       getHeader w1 0%nat name = getHeader (sampleWorld 0) 0%nat name) /\
    logged w1 = [].
Proof.
  destruct (rateLimitMiddleware_frame sampleEnv (ratelimit sampleEnv)
              (sampleOpts sampleCaller) (sampleWorld 0)
              (fst (limit (ratelimit sampleEnv)
                      (identifier sampleCaller samplePath)
                      (redis (sampleWorld 0))))
              {| success := true; remaining := JS.Num 1 |}
              ltac:(vm_compute; reflexivity))
    as (w1 & Hrun & Hstore & Hother & Hname & Hlog).
  exists w1. repeat split; assumption.
Defined.

Lemma guarded_call_of_request_witness :
  exists w1 : World CounterStore,
    getHeader w1 0%nat "X-RateLimit-Limit" = Some (HString "2") /\
    getHeader w1 0%nat "X-RateLimit-Remaining" = Some (HNumber (JS.Num 0)) /\
    call sampleProcedure (createTRPCContext forwardedRequest) samplePath tt
      (sampleWorld 2)
    = (w1, Throw (ThrownTRPC rateLimitExceeded)).
Proof.
  exact (guarded_call_of_request sampleEnv (ratelimit sampleEnv)
           forwardedRequest samplePath (sampleWorld 2)
           (fst (limit (ratelimit sampleEnv)
                   (identifier sampleCaller samplePath)
                   (redis (sampleWorld 2))))
           {| success := false; remaining := JS.Num 0 |}
           [resolverMiddleware sampleResolver] tt
           ltac:(vm_compute; reflexivity)).
Defined.

(** ** The title of a page *)

Lemma append_assoc (a b c : string) : (a +:+ b) +:+ c = a +:+ (b +:+ c).
Proof.
  induction a as [| x a IH]; [reflexivity |].
  change (String x ((a +:+ b) +:+ c) = String x (a +:+ (b +:+ c))).
  now f_equal.
Qed.

(** X7: The document title always ends with the name of the site, and it
    tells the page title: different page titles never render the same
    document title. *)
Theorem documentTitle_injective (title1 title2 : string) :
  (exists front : string,
     Layout.documentTitle title1 = front +:+ "Weather.io") /\
  (Layout.documentTitle title1 = Layout.documentTitle title2 ->
   title1 = title2).
Proof.
  unfold Layout.documentTitle. split.
  - destruct (String.eqb title1 "").
    + exists ""%string. reflexivity.
    + exists (title1 +:+ " - "). now rewrite append_assoc.
  - assert (Hlen : forall t : string, "Weather.io"%string <> t +:+ " - Weather.io").
    { intros t E. apply (f_equal list_ascii_of_string) in E.
      rewrite list_ascii_of_string_append in E.
      apply (f_equal (@length ascii)) in E. rewrite length_app in E.
      simpl in E. lia. }
    destruct (String.eqb_spec title1 ""), (String.eqb_spec title2 "");
      intros E.
    + congruence.
    + destruct (Hlen _ E).
    + symmetry in E. destruct (Hlen _ E).
    + apply (f_equal list_ascii_of_string) in E.
      rewrite !list_ascii_of_string_append in E.
      apply app_inv_tail in E. now apply list_ascii_of_string_inj.
Qed.

Lemma documentTitle_injective_witness :
  (exists front : string,
     Layout.documentTitle "Settings" = front +:+ "Weather.io") /\
  "Settings"%string = "Settings"%string.
Proof.
  destruct (documentTitle_injective "Settings" "Settings") as [Hend Hinj].
  split; [exact Hend | exact (Hinj eq_refl)].
Defined.

(** ** Choosing a city on the search page *)

Section SearchFacts.

Import Search.

Context {number : Type}.
Variable t : string -> string.

Local Abbreviation City := (ICity number).
Local Abbreviation Page := (PageState number).

(** The branches of [searchCity], with the outcome of its [find]. *)
Ltac search_cases r :=
  unfold searchCity;
  destruct (id (searchValue r) =? -1) eqn:Hgeo;
    [| destruct (negb (id (searchValue r) =? 0)
                 && negb (String.eqb (country (searchValue r)) "")) eqn:Hsel;
       [ destruct (isLoading (findCityByIdStatus r)) eqn:Hload;
           [| destruct (findCityByIdData r) as [| [found |]] eqn:Hdata ]
       | destruct (isLoading (findCityByNameStatus r)) eqn:Hload;
           [| destruct (findCityByNameData r) as [| [found |]] eqn:Hdata ] ] ];
  cbn [addedCities activeCity toasts console router
       toast_error console_log router_push activeCity_set addedCities_push];
  try match goal with
      | |- context [find ?f ?l] => destruct (find f l) eqn:Hfind
      end;
  cbn [addedCities activeCity toasts console router
       toast_error console_log router_push activeCity_set addedCities_push].

Lemma find_id_none (k : Z) (cities : list City) :
  find (fun value => id value =? k) cities = None ->
  ~ In k (map id cities).
Proof.
  intros H Hin. apply in_map_iff in Hin as (city & <- & Hin).
  pose proof (find_none _ _ H city Hin) as Hf. simpl in Hf.
  rewrite Z.eqb_refl in Hf. discriminate Hf.
Qed.

Lemma find_id_some (k : Z) (cities : list City) (city : City) :
  find (fun value => id value =? k) cities = Some city ->
  In city cities /\ id city = k.
Proof.
  intros H. apply find_some in H as [Hin Hid]. split; [exact Hin |].
  now apply Z.eqb_eq.
Qed.

Lemma NoDup_ids_snoc (cities : list City) (city : City) :
  NoDup (map id cities) ->
  ~ In (id city) (map id cities) ->
  NoDup (map id (cities ++ [city])).
Proof.
  intros Hnd Hnot. rewrite map_app. apply NoDup_app.
  split; [exact Hnd |]. split; [| apply NoDup_singleton].
  intros k Hk Hk'. apply list_elem_of_singleton in Hk'. subst k.
  apply Hnot. now apply list_elem_of_In.
Qed.

(** X8: The saved cities never hold two cities with one id: [searchCity]
    keeps the list free of duplicate ids. *)
Theorem searchCity_keeps_ids_distinct (r : Render number) (st : Page) :
  NoDup (map id (addedCities st)) ->
  NoDup (map id (addedCities (searchCity t r st))).
Proof.
  intros Hnd. search_cases r; try exact Hnd;
    apply NoDup_ids_snoc; try exact Hnd;
    eapply find_id_none; exact Hfind.
Qed.

(** X9: One run of [searchCity] either fails or navigates, never both: it
    shows exactly one toast (try again, or city not found) and leaves the
    saved cities, the active city and the route alone; or it shows no
    toast, makes a city the active one, pushes /home once, and the saved
    cities then hold a city with that id: the list is unchanged when it
    held one already, and has the city appended when it held none. *)
Theorem searchCity_outcome (r : Render number) (st : Page) :
  (exists message : string,
     (message = t "try again toast" \/ message = t "city not found toast") /\
     toasts (searchCity t r st) = toasts st ++ [message] /\
     addedCities (searchCity t r st) = addedCities st /\
     activeCity (searchCity t r st) = activeCity st /\
     router (searchCity t r st) = router st) \/
  (exists city : City,
     toasts (searchCity t r st) = toasts st /\
     activeCity (searchCity t r st) = Some city /\
     router (searchCity t r st) = router st ++ ["/home"%string] /\
     ((addedCities (searchCity t r st) = addedCities st /\
       In (id city) (map id (addedCities st))) \/
      (addedCities (searchCity t r st) = addedCities st ++ [city] /\
       ~ In (id city) (map id (addedCities st))))).
Proof.
  search_cases r;
    try (left; eexists; split; cycle 1; [repeat split | auto]; fail);
    right; eexists; (split; [reflexivity |]); (split; [reflexivity |]);
    (split; [reflexivity |]).
  all: first
    [ left; split; [reflexivity |];
      apply find_id_some in Hfind as [Hin <-]; now apply in_map
    | right; split; [reflexivity |]; eapply find_id_none; exact Hfind ].
Qed.

Lemma find_id_snoc (cities : list City) (city : City) :
  find (fun value => id value =? id city) cities = None ->
  find (fun value => id value =? id city) (cities ++ [city]) = Some city.
Proof.
  induction cities as [| c cities IH]; simpl.
  - now rewrite Z.eqb_refl.
  - destruct (id c =? id city); [discriminate | exact IH].
Qed.

(** X10: Running [searchCity] a second time in the same render (a second
    press of enter, a second click) saves nothing more and keeps the
    active city. *)
Theorem searchCity_twice (r : Render number) (st : Page) :
  addedCities (searchCity t r (searchCity t r st))
  = addedCities (searchCity t r st) /\
  activeCity (searchCity t r (searchCity t r st))
  = activeCity (searchCity t r st).
Proof.
  unfold searchCity;
  destruct (id (searchValue r) =? -1) eqn:Hgeo;
    [| destruct (negb (id (searchValue r) =? 0)
                 && negb (String.eqb (country (searchValue r)) "")) eqn:Hsel;
       [ destruct (isLoading (findCityByIdStatus r)) eqn:Hload;
           [| destruct (findCityByIdData r) as [| [found |]] eqn:Hdata ]
       | destruct (isLoading (findCityByNameStatus r)) eqn:Hload;
           [| destruct (findCityByNameData r) as [| [found |]] eqn:Hdata ] ] ];
  cbn [addedCities activeCity toasts console router
       toast_error console_log router_push activeCity_set addedCities_push];
  try (split; reflexivity);
  match goal with
  | |- context [find ?f (addedCities st)] =>
      destruct (find f (addedCities st)) eqn:Hfind
  end;
  cbn [addedCities activeCity toasts console router
       toast_error console_log router_push activeCity_set addedCities_push];
  rewrite ?Hfind; try rewrite (find_id_snoc _ _ Hfind);
  cbn [addedCities activeCity toasts console router
       toast_error console_log router_push activeCity_set addedCities_push];
  split; reflexivity.
Qed.

(** X11: A located city (id -1) needs no query: whatever the queries hold,
    [searchCity] makes the city with the name and the coordinates of the
    search value the active one and pushes /home, without a toast.  It is
    saved only when no city with id -1 is saved yet: a located city saved
    before stays as it is, with the coordinates it had. *)
Theorem searchCity_located (r : Render number) (st : Page) :
  id (searchValue r) = -1 ->
  activeCity (searchCity t r st)
  = Some {| id := -1;
            name := name (searchValue r);
            country := "";
            region := "";
            coord := {| lon := lon (coord (searchValue r));
                        lat := lat (coord (searchValue r)) |} |} /\
  router (searchCity t r st) = router st ++ ["/home"%string] /\
  toasts (searchCity t r st) = toasts st /\
  (In (-1) (map id (addedCities st)) ->
   addedCities (searchCity t r st) = addedCities st) /\
  (~ In (-1) (map id (addedCities st)) ->
   addedCities (searchCity t r st)
   = addedCities st
     ++ [{| id := -1;
            name := name (searchValue r);
            country := "";
            region := "";
            coord := {| lon := lon (coord (searchValue r));
                        lat := lat (coord (searchValue r)) |} |}]).
Proof.
  intros Hid. unfold searchCity. rewrite Hid. cbn [Z.eqb Pos.eqb id].
  destruct (find (fun value => id value =? -1) (addedCities st)) eqn:Hfind;
    cbn [addedCities activeCity toasts console router
         router_push activeCity_set addedCities_push];
    do 3 (split; [reflexivity |]); split; intros H; try reflexivity.
  - exfalso. apply H. apply find_id_some in Hfind as [Hin Hc].
    rewrite <- Hc. now apply in_map.
  - exfalso. exact (find_id_none _ _ Hfind H).
Qed.

(** X12: After typing, the id of the search value is 0, so [searchCity] goes
    by the name: what the query by id holds has no influence on it. *)
Theorem searchCity_after_typing (value : string) (prev : City)
    (r r' : Render number) (st : Page) :
  searchValue r = onChange value prev ->
  searchValue r' = onChange value prev ->
  findCityByNameStatus r = findCityByNameStatus r' ->
  findCityByNameData r = findCityByNameData r' ->
  searchCity t r st = searchCity t r' st.
Proof.
  intros E E' Hs Hd. unfold searchCity.
  rewrite E, E', Hs, Hd. reflexivity.
Qed.

(** X13: After picking a suggestion whose id is neither 0 nor -1 and whose
    country is not empty, [searchCity] goes by the id: what the query by
    name holds has no influence on it. *)
Theorem searchCity_after_picking (city prev : City)
    (r r' : Render number) (st : Page) :
  id city <> 0 ->
  id city <> -1 ->
  country city <> ""%string ->
  searchValue r = onMouseDown city prev ->
  searchValue r' = onMouseDown city prev ->
  findCityByIdStatus r = findCityByIdStatus r' ->
  findCityByIdData r = findCityByIdData r' ->
  searchCity t r st = searchCity t r' st.
Proof.
  intros H0 H1 Hc E E' Hs Hd. unfold searchCity.
  rewrite E, E', Hs, Hd. cbn [onMouseDown id country].
  destruct (Z.eqb_spec (id city) (-1)) as [? | _]; [contradiction |].
  destruct (Z.eqb_spec (id city) 0) as [? | _]; [contradiction |].
  destruct (String.eqb_spec (country city) "") as [? | _]; [contradiction |].
  reflexivity.
Qed.

End SearchFacts.

Lemma searchCity_keeps_ids_distinct_witness :
  NoDup
    (map Search.id
       (Search.addedCities
          (Search.searchCity (fun key => key)
             (sampleRender (Search.onMouseDown sampleCity initialSearchValue))
             (pageWith [sampleCity])))).
Proof.
  apply (searchCity_keeps_ids_distinct (fun key => key)
           (sampleRender (Search.onMouseDown sampleCity initialSearchValue))
           (pageWith [sampleCity])).
  simpl. apply NoDup_singleton.
Defined.

Lemma searchCity_located_witness :
  Search.activeCity
    (Search.searchCity (fun key => key)
       (loadingRender (Search.onPosition (fun key => key) 52 13))
       (pageWith [Search.onPosition (fun key => key) 48 2]))
  = Some (Search.onPosition (fun key => key) 52 13) /\
  Search.addedCities
    (Search.searchCity (fun key => key)
       (loadingRender (Search.onPosition (fun key => key) 52 13))
       (pageWith [Search.onPosition (fun key => key) 48 2]))
  = [Search.onPosition (fun key => key) 48 2].
Proof.
  destruct (searchCity_located (fun key => key)
              (loadingRender (Search.onPosition (fun key => key) 52 13))
              (pageWith [Search.onPosition (fun key => key) 48 2])
              eq_refl) as (Hactive & _ & _ & Hkept & _).
  split; [exact Hactive |].
  apply Hkept. simpl. left. reflexivity.
Defined.

Lemma searchCity_after_typing_witness :
  Search.searchCity (fun key => key)
    (sampleRender (Search.onChange "Ber" sampleCity)) (pageWith [])
  = Search.searchCity (fun key => key)
      {| Search.searchValue := Search.onChange "Ber" sampleCity;
         Search.findCityByIdStatus := Search.loading;
         Search.findCityByIdData := Search.ArrayData;
         Search.findCityByNameStatus := Search.success;
         Search.findCityByNameData := Search.ObjectData (Some sampleCity) |}
      (pageWith []).
Proof.
  exact (searchCity_after_typing (fun key => key) "Ber" sampleCity
           (sampleRender (Search.onChange "Ber" sampleCity))
           {| Search.searchValue := Search.onChange "Ber" sampleCity;
              Search.findCityByIdStatus := Search.loading;
              Search.findCityByIdData := Search.ArrayData;
              Search.findCityByNameStatus := Search.success;
              Search.findCityByNameData := Search.ObjectData (Some sampleCity) |}
           (pageWith []) eq_refl eq_refl eq_refl eq_refl).
Defined.

Lemma searchCity_after_picking_witness :
  Search.searchCity (fun key => key)
    (sampleRender (Search.onMouseDown sampleCity initialSearchValue))
    (pageWith [])
  = Search.searchCity (fun key => key)
      {| Search.searchValue := Search.onMouseDown sampleCity initialSearchValue;
         Search.findCityByIdStatus := Search.success;
         Search.findCityByIdData := Search.ObjectData (Some sampleCity);
         Search.findCityByNameStatus := Search.loading;
         Search.findCityByNameData := Search.ArrayData |}
      (pageWith []).
Proof.
  exact (searchCity_after_picking (fun key => key) sampleCity initialSearchValue
           (sampleRender (Search.onMouseDown sampleCity initialSearchValue))
           {| Search.searchValue :=
                Search.onMouseDown sampleCity initialSearchValue;
              Search.findCityByIdStatus := Search.success;
              Search.findCityByIdData := Search.ObjectData (Some sampleCity);
              Search.findCityByNameStatus := Search.loading;
              Search.findCityByNameData := Search.ArrayData |}
           (pageWith [])
           ltac:(discriminate) ltac:(discriminate) ltac:(discriminate)
           eq_refl eq_refl eq_refl eq_refl).
Defined.
